(** * The candidate curation engine of the mood board page

    A shallow embedding of the client component [Home] (the page that
    owns the prefetch queue, the three visible slots, the kept list and
    the seen set) together with the keyword scoring helpers declared
    above it in the same file.

    Conventions of the embedding.
    - A JavaScript string is a Rocq [string] read character by
      character as ISO 8859-1: the character with code [n] stands for
      the code point U+00[n].  On such strings [toLowerCase], the
      classes [\p{L}], [\p{N}] and [\s] and [length] are exactly the
      ones written below.
    - A JavaScript number that holds a score is a binary64 float
      ([PrimFloat.float]); counters, page numbers and slot indices are
      integers in [Z].
    - A [Set<string>] is a [gset string]; a [Record<string, number>] is
      an association list in property creation order.
    - Every handler is cut at its [await]s.  A piece between two
      [await]s runs without interruption, reads the committed React
      state and the refs, and leaves the next committed state, so it is
      a function on [Session].  What a piece sends to the network is
      returned next to the new state. *)

From Stdlib Require Import ZArith String Ascii List Bool Lia PrimFloat.
From stdpp Require Import base list gmap sets strings pretty.

Set Warnings "-inexact-float,-clear-no-such-hyp".

Local Open Scope string_scope.
Local Open Scope list_scope.
Local Open Scope Z_scope.

(** ** Items *)

Record Item := mkItem {
  id : string;
  title : string;
  thumb : string;
  full : string;
  creator : string;
  creator_url : option string;
  license : string;
  license_version : option string;
  source : option string
}.

Definition SLOT_COUNT : nat := 3.

(** ** Lexicons *)

Definition COLOR_WORDS : gset string := list_to_set [
  "black";"white";"gray";"grey";"charcoal";"silver";"gold";"golden";
  "blue";"navy";"indigo";"teal";"cyan";"turquoise";
  "red";"crimson";"scarlet";"maroon";
  "green";"emerald";"olive";"sage";
  "yellow";"amber";"ochre";"ocher";"mustard";
  "purple";"violet";"magenta";"lilac";
  "orange";"rust";"copper";"bronze";
  "brown";"beige";"tan";"sepia";
  "pink";"peach";"rose" ].

Definition MOOD_WORDS : gset string := list_to_set [
  "lonely";"solitary";"melancholy";"wistful";"moody";"somber";"brooding";
  "serene";"calm";"peaceful";"tender";"nostalgic";"yearning";"eerie";"ominous" ].

Definition PHOTO_COMPOSITION : gset string := list_to_set [
  "silhouette";"portrait";"landscape";"wide";"aerial";"macro";"minimalist";
  "grainy";"film";"bokeh";"long-exposure";"lowlight";"low-light";
  "horizon";"skyline";"shore";"cliff";"alley";"street";"night";"dawn";"dusk";
  "rain";"fog";"mist";"snow";"storm";"neon";"reflections" ].

Definition STOP : gset string := list_to_set [
  "the";"a";"an";"and";"or";"of";"in";"on";"at";"to";"for";"with";"from";"by";"into";"over";
  "is";"are";"was";"were";"be";"been";"being";"it";"its";"that";"this";"these";"those";"as";
  "but";"if";"then";"than";"so";"such";"very";"not";"no";"off";"out";"up";"down";"near";"far";
  "your";"my";"our";"their";"his";"her";"they";"them";"you";"we";"i" ].

(** [S.has(w)] *)
Definition has (S : gset string) (w : string) : bool := bool_decide (w ∈ S).

(** ** Characters and [tokenize] *)

Definition code (c : ascii) : N := N_of_ascii c.

Definition between (lo hi : N) (c : ascii) : bool :=
  ((lo <=? code c) && (code c <=? hi))%N.

(** [\s]: TAB, LF, VT, FF, CR, SPACE and NO-BREAK SPACE. *)
Definition is_space (c : ascii) : bool :=
  between 9 13 c || (code c =? 32)%N || (code c =? 160)%N.

(** [\p{L}] below U+0100. *)
Definition is_letter (c : ascii) : bool :=
  between 65 90 c || between 97 122 c
  || (code c =? 170)%N || (code c =? 181)%N || (code c =? 186)%N
  || between 192 214 c || between 216 246 c || between 248 255 c.

(** [\p{N}] below U+0100. *)
Definition is_number (c : ascii) : bool :=
  between 48 57 c
  || (code c =? 178)%N || (code c =? 179)%N || (code c =? 185)%N
  || between 188 190 c.

Definition is_hyphen (c : ascii) : bool := (code c =? 45)%N.

Definition lower_char (c : ascii) : ascii :=
  if between 65 90 c || (between 192 222 c && negb (code c =? 215)%N)
  then ascii_of_N (code c + 32)
  else c.

Fixpoint map_chars (f : ascii -> ascii) (s : string) : string :=
  match s with
  | EmptyString => EmptyString
  | String c r => String (f c) (map_chars f r)
  end.

Definition toLowerCase (s : string) : string := map_chars lower_char s.

(** [.replace(/[^\p{L}\p{N}\s-]/gu, " ")] *)
Definition blank_other (c : ascii) : ascii :=
  if is_letter c || is_number c || is_space c || is_hyphen c then c else " "%char.

(** [.split(/\s+/)]: cut at every maximal run of white space.  [cur] is
    the piece being read, [in_run] tells that the previous character was
    white space.  A string that starts or ends with white space yields an
    empty first or last piece, as in JavaScript. *)
Fixpoint split_ws (s : string) (cur : string) (in_run : bool) : list string :=
  match s with
  | EmptyString => [cur]
  | String c r =>
      if is_space c
      then (if in_run then split_ws r cur true else cur :: split_ws r "" true)
      else split_ws r (cur +:+ String c "") false
  end.

(** [Boolean(s)] for a string. *)
Definition truthy (s : string) : bool :=
  match s with EmptyString => false | _ => true end.

Definition tokenize (text : string) : list string :=
  List.filter truthy (split_ws (map_chars blank_other (toLowerCase text)) "" false).

(** ** Biases *)

(** [/(suf)$/.test(w)] for one alternative. *)
Definition ends_with (suf w : string) : bool :=
  let n := String.length w in
  let m := String.length suf in
  (m <=? n)%nat && String.eqb (substring (n - m) m w) suf.

Definition ends_with_any (sufs : list string) (w : string) : bool :=
  existsb (fun suf => ends_with suf w) sufs.

(** [w.includes("-")] *)
Fixpoint includes_hyphen (w : string) : bool :=
  match w with
  | EmptyString => false
  | String c r => is_hyphen c || includes_hyphen r
  end.

Definition posBias (word : string) : float :=
  if ends_with_any ["ful";"less";"ous";"ive";"ish";"y";"ly"] word then 1.2%float
  else if ends_with_any ["tion";"ment";"ness";"scape";"graphy"] word then 1.15%float
  else if includes_hyphen word then 1.1%float
  else if (7 <=? String.length word)%nat then 1.05%float
  else 1.0%float.

Definition domainBias (word : string) : float :=
  let b := 1.0%float in
  let b := if has COLOR_WORDS word then (b * 1.25)%float else b in
  let b := if has MOOD_WORDS word then (b * 1.2)%float else b in
  let b := if has PHOTO_COMPOSITION word then (b * 1.15)%float else b in
  b.

(** ** Score tables *)

(** The own properties of a [Record<string, number>], oldest first.
    The table is read as its type says: a word has a score only when
    one was stored (of the words a tokenizer can produce, only
    [constructor] is also a name that a bare object inherits). *)
Definition ScoreTable := list (string * float).

(** [scores[w]] *)
Fixpoint get_score (w : string) (scores : ScoreTable) : option float :=
  match scores with
  | [] => None
  | (k, v) :: rest => if String.eqb k w then Some v else get_score w rest
  end.

(** [scores[w] = v]: an existing property keeps its place, a new one is
    created last. *)
Fixpoint set_score (w : string) (v : float) (scores : ScoreTable) : ScoreTable :=
  match scores with
  | [] => [(w, v)]
  | (k, u) :: rest =>
      if String.eqb k w then (k, v) :: rest else (k, u) :: set_score w v rest
  end.

(** [x ?? 0] *)
Definition or_zero (x : option float) : float :=
  match x with Some v => v | None => 0%float end.

(** [scores[w] = (scores[w] ?? 0) + inc] *)
Definition bump (w : string) (inc : float) (scores : ScoreTable) : ScoreTable :=
  set_score w (or_zero (get_score w scores) + inc)%float scores.

Definition scoreTokensFrom (text : string) (weight : float) (scores : ScoreTable)
  : ScoreTable :=
  fold_left
    (fun sc w =>
       if has STOP w || (String.length w <? 3)%nat then sc
       else bump w (weight * posBias w * domainBias w)%float sc)
    (tokenize text) scores.

Definition preseedColorHintsFromUserText (scores : ScoreTable) (text : string)
  : ScoreTable :=
  fold_left
    (fun sc w => if has COLOR_WORDS w then bump w 0.6%float sc else sc)
    (tokenize text) scores.

(** ** [topKeywords] *)

(** The value of a string of ASCII digits, [None] for anything else. *)
Fixpoint digits_value (s : string) (acc : N) : option N :=
  match s with
  | EmptyString => Some acc
  | String c r =>
      if between 48 57 c then digits_value r (acc * 10 + (code c - 48))%N
      else None
  end.

(** A property name is an array index when it is the canonical decimal
    form of an integer below 2^32 - 1.  [Object.entries] lists such
    names first, in increasing order, and the other names after them in
    creation order. *)
Definition array_index (k : string) : option N :=
  match k with
  | EmptyString => None
  | String c r =>
      if (code c =? 48)%N && truthy r then None
      else match digits_value k 0 with
           | Some n => if (n <? 4294967295)%N then Some n else None
           | None => None
           end
  end.

Fixpoint insert_index (e : N * (string * float)) (l : list (N * (string * float)))
  : list (N * (string * float)) :=
  match l with
  | [] => [e]
  | e' :: rest =>
      if (fst e <? fst e')%N then e :: l else e' :: insert_index e rest
  end.

Definition Object_entries (scores : ScoreTable) : list (string * float) :=
  let indexed :=
    foldr (fun kv acc =>
             match array_index (fst kv) with
             | Some n => insert_index (n, kv) acc
             | None => acc
             end) [] scores in
  let named :=
    List.filter (fun kv => match array_index (fst kv) with
                           | Some _ => false
                           | None => true
                           end) scores in
  map snd indexed ++ named.

(** The comparator [(a, b) => b[1] - a[1]]. *)
Definition by_score_desc (a b : string * float) : float := (snd b - snd a)%float.

(** [Array.prototype.sort] is stable: [x], which stood before every
    element of the sorted rest [l], moves behind exactly the elements
    that the comparator puts strictly before it. *)
Fixpoint sort_insert (cmp : string * float -> string * float -> float)
    (x : string * float) (l : list (string * float)) : list (string * float) :=
  match l with
  | [] => [x]
  | y :: rest =>
      if (cmp y x <? 0)%float then y :: sort_insert cmp x rest else x :: l
  end.

Definition sort (cmp : string * float -> string * float -> float)
    (l : list (string * float)) : list (string * float) :=
  foldr (sort_insert cmp) [] l.

Definition drop_last (n : nat) (w : string) : string :=
  substring 0 (String.length w - n) w.

(** [w.replace(/(s|es|ed|ing|ly)$/, "")].  The match that starts
    leftmost wins, so the longest of the listed endings is removed. *)
Definition root_of (w : string) : string :=
  if ends_with "ing" w then drop_last 3 w
  else if ends_with_any ["es";"ed";"ly"] w then drop_last 2 w
  else if ends_with "s" w then drop_last 1 w
  else w.

(** The loop of [topKeywords] over the sorted entries. *)
Fixpoint pick_roots (entries : list (string * float)) (picked : list string)
    (seenRoots : gset string) (max : nat) : list string :=
  match entries with
  | [] => picked
  | (w, _) :: rest =>
      let root := root_of w in
      if has seenRoots root then pick_roots rest picked seenRoots max
      else
        let picked := picked ++ [w] in
        let seenRoots := seenRoots ∪ {[ root ]} in
        if (max <=? length picked)%nat then picked
        else pick_roots rest picked seenRoots max
  end.

Definition topKeywords (scores : ScoreTable) (max : nat) : list string :=
  let entries := sort by_score_desc (Object_entries scores) in
  pick_roots entries [] ∅ max.

(** [keywords.join(" ")] *)
Definition join (sep : string) (l : list string) : string := String.concat sep l.

(** ** The session *)

Record Session := mkSession {
  userText : string;
  activeQuery : string;
  itemsQueue : list Item;
  visible : list Item;
  kept : list Item;
  seenIds : gset string;
  page : Z;
  loading : bool;
  error : option string;
  seenIdsRef : gset string;
  fetchingRef : bool;
  currentRequestRef : Z
}.

(** The state of the first render. *)
Definition initialSession : Session :=
  let userText := "lonely, dark, single figure, horizon" in
  {| userText := userText; activeQuery := userText;
     itemsQueue := []; visible := []; kept := []; seenIds := ∅;
     page := 1; loading := false; error := None;
     seenIdsRef := ∅; fetchingRef := false; currentRequestRef := 0 |}.

(** ** [refineQueryWith] *)

Definition baseWeight : float := 1.0%float.
Definition keptWeight : float := 1.4%float.
Definition itemWeight : float := 1.8%float.

(** The score table that [refineQueryWith] builds. *)
Definition refineScores (s : Session) (item : Item) : ScoreTable :=
  let scores := preseedColorHintsFromUserText [] (userText s) in
  let scores := scoreTokensFrom (activeQuery s) baseWeight scores in
  let scores :=
    fold_left (fun sc k => scoreTokensFrom (title k) keptWeight sc)
              (take 5 (kept s)) scores in
  scoreTokensFrom (title item) itemWeight scores.

(** [const keywords = topKeywords(scores, 12)] *)
Definition refineKeywords (s : Session) (item : Item) : list string :=
  topKeywords (refineScores s item) 12.

(** [refined || activeQuery] *)
Definition refineQueryWith (s : Session) (item : Item) : string :=
  let refined := join " " (refineKeywords s item) in
  if truthy refined then refined else activeQuery s.

(** ** State setters

    [setX v] is the committed effect of the React setter called with the
    value [v]; the three refs are assigned directly. *)

Definition setUserText (v : string) (s : Session) : Session :=
  mkSession v (activeQuery s) (itemsQueue s) (visible s) (kept s) (seenIds s)
            (page s) (loading s) (error s) (seenIdsRef s) (fetchingRef s)
            (currentRequestRef s).

Definition setActiveQuery (v : string) (s : Session) : Session :=
  mkSession (userText s) v (itemsQueue s) (visible s) (kept s) (seenIds s)
            (page s) (loading s) (error s) (seenIdsRef s) (fetchingRef s)
            (currentRequestRef s).

Definition setItemsQueue (v : list Item) (s : Session) : Session :=
  mkSession (userText s) (activeQuery s) v (visible s) (kept s) (seenIds s)
            (page s) (loading s) (error s) (seenIdsRef s) (fetchingRef s)
            (currentRequestRef s).

Definition setVisible (v : list Item) (s : Session) : Session :=
  mkSession (userText s) (activeQuery s) (itemsQueue s) v (kept s) (seenIds s)
            (page s) (loading s) (error s) (seenIdsRef s) (fetchingRef s)
            (currentRequestRef s).

Definition setKept (v : list Item) (s : Session) : Session :=
  mkSession (userText s) (activeQuery s) (itemsQueue s) (visible s) v (seenIds s)
            (page s) (loading s) (error s) (seenIdsRef s) (fetchingRef s)
            (currentRequestRef s).

Definition setSeenIds (v : gset string) (s : Session) : Session :=
  mkSession (userText s) (activeQuery s) (itemsQueue s) (visible s) (kept s) v
            (page s) (loading s) (error s) (seenIdsRef s) (fetchingRef s)
            (currentRequestRef s).

Definition setPage (v : Z) (s : Session) : Session :=
  mkSession (userText s) (activeQuery s) (itemsQueue s) (visible s) (kept s)
            (seenIds s) v (loading s) (error s) (seenIdsRef s) (fetchingRef s)
            (currentRequestRef s).

Definition setLoading (v : bool) (s : Session) : Session :=
  mkSession (userText s) (activeQuery s) (itemsQueue s) (visible s) (kept s)
            (seenIds s) (page s) v (error s) (seenIdsRef s) (fetchingRef s)
            (currentRequestRef s).

Definition setError (v : option string) (s : Session) : Session :=
  mkSession (userText s) (activeQuery s) (itemsQueue s) (visible s) (kept s)
            (seenIds s) (page s) (loading s) v (seenIdsRef s) (fetchingRef s)
            (currentRequestRef s).

Definition assign_seenIdsRef (v : gset string) (s : Session) : Session :=
  mkSession (userText s) (activeQuery s) (itemsQueue s) (visible s) (kept s)
            (seenIds s) (page s) (loading s) (error s) v (fetchingRef s)
            (currentRequestRef s).

Definition assign_fetchingRef (v : bool) (s : Session) : Session :=
  mkSession (userText s) (activeQuery s) (itemsQueue s) (visible s) (kept s)
            (seenIds s) (page s) (loading s) (error s) (seenIdsRef s) v
            (currentRequestRef s).

Definition assign_currentRequestRef (v : Z) (s : Session) : Session :=
  mkSession (userText s) (activeQuery s) (itemsQueue s) (visible s) (kept s)
            (seenIds s) (page s) (loading s) (error s) (seenIdsRef s)
            (fetchingRef s) v.

(** [l.map(x => x.id)] *)
Definition ids (l : list Item) : list string := id <$> l.

(** ** The network *)

Inductive Request :=
  | GetImages (query : string) (pageNum : Z) (append : bool)
  | PostAnalyze (text : string) (acceptedTitles : list string).

(** The JSON body of a response that is not OK, as far as [fetchImages]
    reads it: [retry_after] as the template literal prints it, and
    [error] when it is truthy. *)
Record ErrorBody := mkErrorBody {
  retry_after : option string;
  body_error : option string
}.

(** The body of an OK response of the image route: [r.json()] rejects
    with an exception ([message] is its [e?.message]), or yields an
    object with or without [items]. *)
Inductive ImagesBody :=
  | BadBody (message : option string)
  | Json (items : option (list Item)).

(** What [await fetch(url)] comes back with in [fetchImages]: a rejection
    (network failure), a response that is not OK (its body is [None] when
    it is not a JSON object), or an OK response. *)
Inductive ImagesResponse :=
  | Rejected (message : option string)
  | NotOk (status : Z) (body : option ErrorBody)
  | Ok (body : ImagesBody).

(** What [await fetch("/api/analyze", ...).catch(() => null)] comes back
    with: [None] for [null] (aborted by the timer, or a network failure),
    [Some ok] for a response and its [ok] flag. *)
Definition AnalyzeResponse := option bool.

(** [analysis?.search_query] *)
Inductive SearchQuery :=
  | Nullish
  | Text (s : string)
  | NotText (message : option string).

(** The outcome of [await aiResp.json()]: a rejection, or the parsed
    analysis with its [search_query].  [NotText] stands for a value that
    is neither nullish nor a string; calling its missing [trim] raises a
    [TypeError] with the given [e?.message]. *)
Inductive AnalyzeBody :=
  | BadJson (message : option string)
  | Analysis (search_query : SearchQuery).

(** [x ?? d] *)
Definition or_else {A} (x : option A) (d : A) : A :=
  match x with Some v => v | None => d end.

(** ** [fetchImages] *)

(** The message of the [Error] thrown for a response that is not OK.
    (The typographic apostrophe of the source text, which lies outside
    ISO 8859-1, is written as the ASCII one.) *)
Definition notOkMessage (status : Z) (body : option ErrorBody) : string :=
  let msg := "API " +:+ pretty status in
  match body with
  | None => msg
  | Some b =>
      if status =? 429
      then "We're being rate-limited by Openverse. Try again in "
           +:+ or_else (retry_after b) "60" +:+ "s."
      else match body_error b with
           | Some e => e
           | None => msg
           end
  end.

(** [fetchImages] up to [await fetch(url)].  [None]: a fetch is in
    flight already and the call returns 0 at once. *)
Definition fetchImages_begin (query : string) (pageNum : Z) (append : bool)
    (s : Session) : Session * option Request :=
  if fetchingRef s then (s, None)
  else
    let s := assign_fetchingRef true s in
    let s := setLoading true s in
    let s := setError None s in
    (s, Some (GetImages query pageNum append)).

(** The [finally] block of [fetchImages]. *)
Definition fetchImages_finally (s : Session) : Session :=
  assign_fetchingRef false (setLoading false s).

(** The [catch] block of [fetchImages], with [e?.message]. *)
Definition fetchImages_catch (message : option string) (s : Session)
  : Session * nat :=
  (fetchImages_finally (setError (Some (or_else message "Search failed")) s), 0%nat).

(** [fresh]: the fetched items that are not in the seen set. *)
Definition fresh_of (items : list Item) (s : Session) : list Item :=
  filter (λ it, id it ∉ seenIdsRef s) items.

(** [incoming]: the fresh items that are not in the queue [prev]. *)
Definition incoming_of (fresh prev : list Item) : list Item :=
  let existing : gset string := list_to_set (ids prev) in
  filter (λ it, id it ∉ existing) fresh.

(** [fetchImages] from the arrival of the response on; the number is
    the value the call returns. *)
Definition fetchImages_resume (append : bool) (r : ImagesResponse) (s : Session)
  : Session * nat :=
  match r with
  | Rejected message => fetchImages_catch message s
  | NotOk status body => fetchImages_catch (Some (notOkMessage status body)) s
  | Ok (BadBody message) => fetchImages_catch message s
  | Ok (Json items) =>
      let fresh := fresh_of (or_else items []) s in
      let prev := itemsQueue s in
      let incoming := incoming_of fresh prev in
      let s := setItemsQueue (if append then prev ++ incoming else incoming) s in
      (fetchImages_finally s, length fresh)
  end.

(** ** [fillSlots] *)

(** The [while] loop of [fillSlots]; [seen] is [seenIdsRef.current]. *)
Fixpoint fill_loop (seen : gset string) (nextVisible nextQueue : list Item)
    (onScreen : gset string) (newlyShown : list string)
  : list Item * list Item * list string :=
  match nextQueue with
  | [] => (nextVisible, nextQueue, newlyShown)
  | candidate :: rest =>
      if (length nextVisible <? SLOT_COUNT)%nat then
        if has onScreen (id candidate) || has seen (id candidate)
        then fill_loop seen nextVisible rest onScreen newlyShown
        else fill_loop seen (nextVisible ++ [candidate]) rest
                       (onScreen ∪ {[ id candidate ]})
                       (newlyShown ++ [id candidate])
      else (nextVisible, nextQueue, newlyShown)
  end.

(** [fillSlots] reads [visible] and [itemsQueue] of the render that
    created it ([render]) and the current [seenIdsRef]; its writes land
    on the state under construction [s]. *)
Definition fillSlots (render : Session) (s : Session) : Session :=
  if (SLOT_COUNT <=? length (visible render))%nat then s
  else if (length (itemsQueue render) =? 0)%nat then s
  else
    let '(nextVisible, nextQueue, newlyShown) :=
      fill_loop (seenIdsRef s) (visible render) (itemsQueue render)
                (list_to_set (ids (visible render))) [] in
    if (length newlyShown =? 0)%nat then s
    else
      let updatedSeen := seenIdsRef s ∪ list_to_set newlyShown in
      let s := assign_seenIdsRef updatedSeen s in
      let s := setSeenIds updatedSeen s in
      let s := setVisible nextVisible s in
      setItemsQueue nextQueue s.

(** The effect on [[itemsQueue, visible.length]], run after a render. *)
Definition topUp (s : Session) : Session :=
  if (length (visible s) <? SLOT_COUNT)%nat && (0 <? length (itemsQueue s))%nat
  then fillSlots s s
  else s.

(** The effect run once after the first render, up to the [await]. *)
Definition mount (s : Session) : Session * option Request :=
  let s' := setPage 1 s in
  let s' := setItemsQueue [] s' in
  let s' := setVisible [] s' in
  let s' := setKept [] s' in
  let s' := setSeenIds ∅ s' in
  fetchImages_begin (activeQuery s) 1 false s'.

(** ** Slot actions *)

(** [visible[idx]] *)
Definition slot (l : list Item) (idx : Z) : option Item :=
  if idx <? 0 then None else l !! Z.to_nat idx.

(** [next.splice(idx, 1)] *)
Definition splice1 (idx : Z) (l : list Item) : list Item :=
  let len := Z.of_nat (length l) in
  let start := if idx <? 0 then Z.max (len + idx) 0 else Z.min idx len in
  delete (Z.to_nat start) l.

Definition removeSlotAt (idx : Z) (s : Session) : Session :=
  setVisible (splice1 idx (visible s)) s.

Definition markSeen (i : string) (s : Session) : Session :=
  let next := seenIds s ∪ {[ i ]} in
  assign_seenIdsRef next (setSeenIds next s).

Definition handleAccept (idx : Z) (s : Session) : Session * option Request :=
  match slot (visible s) idx with
  | None => (s, None)
  | Some item =>
      let s' := setKept (item :: kept s) s in
      let s' := markSeen (id item) s' in
      let s' := removeSlotAt idx s' in
      let refined := refineQueryWith s item in
      let s' := setActiveQuery refined s' in
      let s' := setPage 1 s' in
      let s' := setItemsQueue [] s' in
      fetchImages_begin refined 1 false s'
  end.

Definition handleReject (idx : Z) (s : Session) : Session * option Request :=
  match slot (visible s) idx with
  | None => (s, None)
  | Some item =>
      let s' := markSeen (id item) s in
      let s' := removeSlotAt idx s' in
      let s' := if (length (itemsQueue s) =? 0)%nat then fillSlots s s' else s' in
      if (length (itemsQueue s) <? 3)%nat && negb (loading s) then
        let nextPage := page s + 1 in
        let s' := setPage nextPage s' in
        fetchImages_begin (activeQuery s) nextPage true s'
      else (s', None)
  end.

(** ** [analyzePoemAndSearch] *)

Fixpoint trim_start (s : string) : string :=
  match s with
  | EmptyString => EmptyString
  | String c r => if is_space c then trim_start r else s
  end.

Fixpoint trim_end (s : string) : string :=
  match s with
  | EmptyString => EmptyString
  | String c r =>
      match trim_end r with
      | EmptyString => if is_space c then EmptyString else String c EmptyString
      | r' => String c r'
      end
  end.

(** [s.trim()] *)
Definition trim (s : string) : string := trim_end (trim_start s).

(** Where a call of [analyzePoemAndSearch] stands after one of its
    pieces: it has returned, or it waits at one of its four [await]s
    (with the request it sent, and the locals it will read again). *)
Inductive Waiting :=
  | Finished
  | AwaitOptimistic (req : Request)
  | AwaitEnrichment (optimisticGot : nat) (req : Request)
  | AwaitBody (optimisticGot : nat)
  | AwaitRefined (optimisticGot : nat) (refined : string) (req : Request).

(** The [finally] block: [myReq] is the generation the call captured. *)
Definition analyze_finally (myReq : Z) (s : Session) : Session :=
  if myReq =? currentRequestRef s then setLoading false s else s.

(** The [catch] block, with [e?.message]. *)
Definition analyze_catch (myReq : Z) (message : option string) (s : Session)
  : Session :=
  analyze_finally myReq (setError (Some (or_else message "Analysis failed")) s).

(** The body of the enrichment request; [kept] is the one of the render
    in which the handler was created. *)
Definition analyze_request (poem : string) (render : Session) : Request :=
  PostAnalyze poem (List.filter truthy (map title (take 5 (kept render)))).

(** From the call to the first [await] that waits: the optimistic fetch,
    or, when [fetchImages] returned 0 at once, the enrichment call.  The
    second component is [myReq]. *)
Definition analyzePoemAndSearch (poem : string) (s : Session)
  : Session * Z * Waiting :=
  let s' := setError None s in
  let s' := setLoading true s' in
  let myReq := currentRequestRef s' + 1 in
  let s' := assign_currentRequestRef myReq s' in
  let s' := setPage 1 s' in
  let s' := setItemsQueue [] s' in
  let s' := setVisible [] s' in
  match fetchImages_begin poem 1 false s' with
  | (s', Some req) => (s', myReq, AwaitOptimistic req)
  | (s', None) => (s', myReq, AwaitEnrichment 0 (analyze_request poem s))
  end.

(** The optimistic response arrives; the enrichment call is sent. *)
Definition analyze_optimistic (poem : string) (render : Session)
    (r : ImagesResponse) (s : Session) : Session * Waiting :=
  let '(s', optimisticGot) := fetchImages_resume false r s in
  (s', AwaitEnrichment optimisticGot (analyze_request poem render)).

(** The enrichment call settles: the staleness guard, then the test
    [!aiResp || !aiResp.ok]. *)
Definition analyze_enrichment (myReq : Z) (optimisticGot : nat)
    (aiResp : AnalyzeResponse) (s : Session) : Session * Waiting :=
  if negb (myReq =? currentRequestRef s) then (analyze_finally myReq s, Finished)
  else
    match aiResp with
    | Some true => (s, AwaitBody optimisticGot)
    | _ => (analyze_finally myReq (setLoading false s), Finished)
    end.

(** After the refined fetch: the second guard, then the commit of the
    refined query or the hint. *)
Definition analyze_tail (myReq : Z) (optimisticGot : nat) (refined : string)
    (got : nat) (s : Session) : Session :=
  if negb (myReq =? currentRequestRef s) then analyze_finally myReq s
  else
    let s' :=
      if (0 <? got)%nat then setActiveQuery refined s
      else if (optimisticGot =? 0)%nat
           then setError (Some "No matches found. Try broader words.") s
           else s in
    analyze_finally myReq s'.

(** [aiResp.json()] settles. *)
Definition analyze_body (myReq : Z) (optimisticGot : nat) (body : AnalyzeBody)
    (s : Session) : Session * Waiting :=
  match body with
  | BadJson message => (analyze_catch myReq message s, Finished)
  | Analysis (NotText message) => (analyze_catch myReq message s, Finished)
  | Analysis Nullish => (analyze_finally myReq s, Finished)
  | Analysis (Text q) =>
      let refined := trim q in
      if truthy refined && (0 <? String.length refined)%nat then
        match fetchImages_begin refined 1 false s with
        | (s', Some req) => (s', AwaitRefined optimisticGot refined req)
        | (s', None) => (analyze_tail myReq optimisticGot refined 0 s', Finished)
        end
      else (analyze_finally myReq s, Finished)
  end.

(** The response to the refined fetch arrives. *)
Definition analyze_refined (myReq : Z) (optimisticGot : nat) (refined : string)
    (r : ImagesResponse) (s : Session) : Session :=
  let '(s', got) := fetchImages_resume false r s in
  analyze_tail myReq optimisticGot refined got s'.

(** ** Sessions as runs of events

    One event is one uninterrupted piece of the component.  The values a
    piece has captured ([append], [myReq], [optimisticGot], [refined])
    travel with the event, so every interleaving of handlers, effects and
    arriving responses is a list of events.  [ImagesArrived] is also the
    arrival of the optimistic response of an analysis, whose continuation
    only sends the enrichment request.  The manual search button is not
    rendered ([ENABLE_MANUAL_SEARCH] is [false]) and has no event. *)

Inductive Event :=
  | Typed (text : string)
  | TopUp
  | Accept (idx : Z)
  | Reject (idx : Z)
  | ImagesArrived (append : bool) (r : ImagesResponse)
  | Analyze (poem : string)
  | EnrichmentArrived (myReq : Z) (optimisticGot : nat) (aiResp : AnalyzeResponse)
  | BodyArrived (myReq : Z) (optimisticGot : nat) (body : AnalyzeBody)
  | RefinedArrived (myReq : Z) (optimisticGot : nat) (refined : string)
                   (r : ImagesResponse).

Definition step (s : Session) (e : Event) : Session :=
  match e with
  | Typed text => setUserText text s
  | TopUp => topUp s
  | Accept idx => fst (handleAccept idx s)
  | Reject idx => fst (handleReject idx s)
  | ImagesArrived append r => fst (fetchImages_resume append r s)
  | Analyze poem => fst (fst (analyzePoemAndSearch poem s))
  | EnrichmentArrived myReq optimisticGot aiResp =>
      fst (analyze_enrichment myReq optimisticGot aiResp s)
  | BodyArrived myReq optimisticGot body =>
      fst (analyze_body myReq optimisticGot body s)
  | RefinedArrived myReq optimisticGot refined r =>
      analyze_refined myReq optimisticGot refined r s
  end.

Definition run (s : Session) (evs : list Event) : Session := fold_left step evs s.

(** The session once the first render and its effect are done. *)
Definition mounted : Session := fst (mount initialSession).



Definition item_of (i t : string) : Item :=
  {| id := i; title := t; thumb := ""; full := ""; creator := "";
     creator_url := None; license := ""; license_version := None; source := None |}.

(** ** Invariants of the session *)

(** What is on screen or kept has been seen, nothing is shown or kept
    twice, nothing is both shown and kept, the ref mirrors the state,
    and the window holds at most [SLOT_COUNT] items. *)
Record Inv (s : Session) : Prop := mkInv {
  inv_ref : seenIdsRef s = seenIds s;
  inv_visible_seen : ∀ x, x ∈ ids (visible s) → x ∈ seenIds s;
  inv_kept_seen : ∀ x, x ∈ ids (kept s) → x ∈ seenIds s;
  inv_visible_distinct : NoDup (ids (visible s));
  inv_kept_distinct : NoDup (ids (kept s));
  inv_visible_kept : ∀ x, x ∈ ids (visible s) → x ∉ ids (kept s);
  inv_window : (length (visible s) ≤ SLOT_COUNT)%nat
}.


(** The fields [Inv] speaks about. *)
Definition shown (s : Session) :=
  (visible s, kept s, seenIds s, seenIdsRef s).



(** ** Vocabulary of the statements *)

(** How often the word [w] occurs among the tokens. *)
Definition occurrences (w : string) (tokens : list string) : nat :=
  length (List.filter (String.eqb w) tokens).

(** The entry of a colour word after one more occurrence:
    [(scores[w] ?? 0) + 0.6]. *)
Definition nudged (v : option float) : option float :=
  Some (or_zero v + 0.6)%float.

(** [fresh] for a response: the fetched items that pass the seen filter. *)
Definition survivors (r : ImagesResponse) (s : Session) : list Item :=
  match r with
  | Ok (Json items) => fresh_of (or_else items []) s
  | _ => []
  end.

(** [incoming] for a response: the items that the queue receives. *)
Definition enqueued (r : ImagesResponse) (s : Session) : list Item :=
  incoming_of (survivors r s) (itemsQueue s).

(** What remains of the old queue when a response has been handled. *)
Definition retained (append : bool) (r : ImagesResponse) (s : Session)
  : list Item :=
  match r with
  | Ok (Json _) => if append then itemsQueue s else []
  | _ => itemsQueue s
  end.

(** The silent end of a call: the loading flag is cleared when the call
    is still the current one, and nothing else changes. *)
Definition settled (myReq : Z) (s : Session) : Session :=
  if myReq =? currentRequestRef s then setLoading false s else s.

(** Five items as a first page; the first one is the item of the
    accept scenario. *)
Definition first_page : list Item :=
  [ item_of "a" "Dark Horizon Silhouette"; item_of "b" "Lone Tree at Dusk";
    item_of "c" "Empty Shore"; item_of "d" "Night Street"; item_of "e" "Fog" ].

(** The first page has arrived and the window is filled. *)
Definition after_first_page : Session :=
  run mounted [ImagesArrived false (Ok (Json (Some first_page))); TopUp].

(** The first slot has been rejected, the low-queue prefetch of page 2
    is in flight, and the window has been topped up again. *)
Definition awaiting_page_2 : Session :=
  run after_first_page [Reject 0; TopUp].

Definition second_page : list Item :=
  [ item_of "e" "Fog"; item_of "f" "Harbour"; item_of "g" "Pier" ].

(** A page in which the provider repeats an id. *)
Definition repeating_page : list Item :=
  [ item_of "a" "Dark Horizon Silhouette"; item_of "b" "Lone Tree at Dusk";
    item_of "c" "Empty Shore"; item_of "a" "Dark Horizon Silhouette" ].

(** An analysis of a poem has started on a filled board, its optimistic
    fetch has come back with the second page, and the enrichment call
    has answered with an OK status; the body is being read. *)
Definition reading_body : Session :=
  run after_first_page
      [ Analyze "stormy sea, small boat";
        ImagesArrived false (Ok (Json (Some second_page)));
        TopUp;
        EnrichmentArrived 1 3 (Some true) ].

(** A session in which no word of the query can be scored. *)
Definition unscorable : Session :=
  setUserText "to be" (setActiveQuery "to be" initialSession).

(** ** Vocabulary of the further properties *)

(** [p] holds of every character of [s]. *)
Fixpoint all_chars (p : ascii → bool) (s : string) : bool :=
  match s with
  | EmptyString => true
  | String c r => p c && all_chars p r
  end.

(** A character that a token can hold: a letter, a digit or a hyphen
    that [toLowerCase] leaves as it is. *)
Definition token_char (c : ascii) : bool :=
  (is_letter c || is_number c || is_hyphen c) && negb (is_space c)
  && Ascii.eqb (lower_char c) c.

(** [p] holds of each of the 256 characters. *)
Definition every_char (p : ascii → bool) : bool :=
  forallb (λ n, p (ascii_of_nat n)) (seq 0 256).

(** A non-empty word of such characters. *)
Definition clean_token (t : string) : Prop :=
  t ≠ "" ∧ all_chars token_char t = true.

(** The test of [scoreTokensFrom]: neither a stop word nor shorter than
    three characters. *)
Definition scorable (w : string) : bool :=
  negb (has STOP w || (String.length w <? 3)%nat).

(** The property names of a table, oldest first. *)
Definition keys (scores : ScoreTable) : list string := fst <$> scores.

(** The words that one refinement reads: the tokens of the typed text,
    of the active query, of the titles of the five most recent kept
    items and of the title of the accepted item. *)
Definition refine_sources (s : Session) (item : Item) : list string :=
  tokenize (userText s) ++ tokenize (activeQuery s)
  ++ (take 5 (kept s) ≫= λ k, tokenize (title k))
  ++ tokenize (title item).

(** The fields outside the collections. *)
Definition controls (s : Session) :=
  (userText s, activeQuery s, page s, currentRequestRef s).

(** ** The analyze route

    The route handler [POST] of [/api/analyze] in its plain form: it
    builds the search query from the posted text and titles. *)

Record AnalyzeRequest := mkAnalyzeRequest {
  text : option string;
  acceptedTitles : option (list string)
}.

(** [[base, extras].filter(Boolean).join(" ").trim()] *)
Definition analyze_search_query (body : AnalyzeRequest) : string :=
  let base := or_else (trim <$> text body) "" in
  let extras := join " " (take 5 (or_else (acceptedTitles body) [])) in
  trim (join " " (List.filter truthy [base; extras])).

(** What the [try] block of the handler works on: [await req.json()]
    rejects or the body is of no use ([message] is [err.message] when
    [err] is an [Error]), or the posted object is of the declared type,
    with each of its two properties possibly missing. *)
Inductive PostedJson :=
  | NotReadable (message : option string)
  | Posted (body : AnalyzeRequest).

(** The answer of the route: its status and its JSON body. *)
Inductive AnalyzeAnswer :=
  | QueryAnswer (search_query : string)
  | ErrorAnswer (status : Z) (error : string).

Definition analyze_POST (req : PostedJson) : AnalyzeAnswer :=
  match req with
  | Posted body => QueryAnswer (analyze_search_query body)
  | NotReadable message => ErrorAnswer 500 (or_else message "Unknown error")
  end.

(** The body that the page posts, read back by the route. *)
Definition posted_by_page (r : Request) : option AnalyzeRequest :=
  match r with
  | PostAnalyze poem titles => Some (mkAnalyzeRequest (Some poem) (Some titles))
  | GetImages _ _ _ => None
  end.

(** [s] does not start with white space. *)
Definition starts_clean (s : string) : bool :=
  match s with
  | EmptyString => true
  | String c _ => negb (is_space c)
  end.

(** ** The middleware *)

Record NextUrl := mkNextUrl {
  pathname : string;
  searchParams : list (string * string)
}.

Inductive MiddlewareResult :=
  | next
  | redirect (url : NextUrl).

(** [searchParams.get(name)]: the first value given for [name]. *)
Fixpoint searchParams_get (name : string) (params : list (string * string))
  : option string :=
  match params with
  | [] => None
  | (k, v) :: rest => if String.eqb k name then Some v else searchParams_get name rest
  end.

Definition middleware (nextUrl : NextUrl) : MiddlewareResult :=
  if negb (String.eqb (pathname nextUrl) "/") then next
  else if bool_decide (searchParams_get "skipIntro" (searchParams nextUrl) = Some "1")
  then next
  else redirect (mkNextUrl "/intro" (searchParams nextUrl)).

(** ** [fetchWithRetry] of the image route *)

(** What one request to the provider ends in: the timer aborts it or it
    fails (the [fetch] rejects), or a response with a status arrives. *)
Inductive FetchOutcome :=
  | Rejects
  | Responds (status : Z).

(** [upstream n] is the outcome of the [n]-th request of a route call;
    [attempt] counts the requests made before this call.  The result is
    the outcome handed to the caller and the number of requests made so
    far.  [tries] is a small natural number (2 by default), and
    [tries - 1] is its predecessor. *)
Fixpoint fetchWithRetry (upstream : nat → FetchOutcome) (attempt : nat)
    (tries : nat) : FetchOutcome * nat :=
  match upstream attempt with
  | Rejects => (Rejects, S attempt)
  | Responds status =>
      if status =? 429 then (Responds status, S attempt)
      else if (500 <=? status) && (status <? 600) && (1 <? tries)%nat then
        match tries with
        | S tries' => fetchWithRetry upstream (S attempt) tries'
        | O => (Responds status, S attempt)
        end
      else (Responds status, S attempt)
  end.

(** [r.status >= 500 && r.status < 600] *)
Definition server_error (o : FetchOutcome) : bool :=
  match o with
  | Responds status => (500 <=? status) && (status <? 600)
  | Rejects => false
  end.

(** ** The image route: [toItem] and the mapping to [Item] *)

(** A value parsed from JSON; the properties of an object are listed
    with each key once. *)
#[warnings="-register-all"]
Inductive JsonValue :=
  | JNull
  | JBool (b : bool)
  | JNumber (n : float)
  | JString (s : string)
  | JArray (elements : list JsonValue)
  | JObject (properties : list (string * JsonValue)).

(** [o[k]] for the properties of a parsed object. *)
Fixpoint property (k : string) (properties : list (string * JsonValue))
  : option JsonValue :=
  match properties with
  | [] => None
  | (k', v) :: rest => if String.eqb k' k then Some v else property k rest
  end.

(** [typeof o[k] === "string" ? o[k] : undefined] *)
Definition string_property (k : string) (o : list (string * JsonValue))
  : option string :=
  match property k o with
  | Some (JString s) => Some s
  | _ => None
  end.

Record OpenverseItem := mkOpenverseItem {
  ov_id : string;
  ov_title : option string;
  ov_thumbnail : option string;
  ov_url : string;
  ov_creator : option string;
  ov_creator_url : option string;
  ov_license : option string;
  ov_license_version : option string;
  ov_source : option string
}.

(** [toItem]: [null] for everything but an object with a string [id].
    (An array is an object for [typeof], but a parsed array has no
    [id].) *)
Definition toItem (x : JsonValue) : option OpenverseItem :=
  match x with
  | JObject o =>
      match string_property "id" o with
      | None => None
      | Some i =>
          Some {| ov_id := i;
                  ov_title := string_property "title" o;
                  ov_thumbnail := string_property "thumbnail" o;
                  ov_url := or_else (string_property "url" o) "";
                  ov_creator := Some (or_else (string_property "creator" o) "");
                  ov_creator_url := string_property "creator_url" o;
                  ov_license := Some (or_else (string_property "license" o) "");
                  ov_license_version := string_property "license_version" o;
                  ov_source := string_property "source" o |}
      end
  | _ => None
  end.

(** The mapping of the route into the [Item] shape of the page. *)
Definition to_frontend (r : OpenverseItem) : Item :=
  {| id := ov_id r;
     title := or_else (ov_title r) "";
     thumb := or_else (ov_thumbnail r) (ov_url r);
     full := ov_url r;
     creator := or_else (ov_creator r) "";
     creator_url := ov_creator_url r;
     license := or_else (ov_license r) "";
     license_version := ov_license_version r;
     source := ov_source r |}.

(** [j.results.map(toItem).filter(Boolean)] and the mapping. *)
Definition mapped_items (results : list JsonValue) : list Item :=
  to_frontend <$> omap toItem results.

(** The string [id] of a provider record, when it has one. *)
Definition record_id (x : JsonValue) : option string :=
  match x with
  | JObject o => string_property "id" o
  | _ => None
  end.

(** * Properties *)

(** ** Lists of items *)

Lemma ids_app (l k : list Item) : ids (l ++ k) = ids l ++ ids k.
Proof. apply fmap_app. Qed.


Lemma elem_of_ids_filter (X : gset string) (l : list Item) (x : string) :
  x ∈ ids (filter (λ it, id it ∉ X) l) ↔ x ∈ ids l ∧ x ∉ X.
Proof.
  unfold ids. rewrite !list_elem_of_fmap. split.
  - intros (it & -> & Hit). apply list_elem_of_filter in Hit as [HX Hl].
    split; [exists it; done | done].
  - intros [(it & -> & Hl) HX]. exists it. split; [done|].
    apply list_elem_of_filter. done.
Qed.

Lemma elem_of_ids_lookup (l : list Item) (i : nat) (it : Item) :
  l !! i = Some it → id it ∈ ids l.
Proof. intros H. apply list_elem_of_fmap_2. eapply list_elem_of_lookup_2, H. Qed.

Lemma ids_delete (l : list Item) (i : nat) : ids (delete i l) = delete i (ids l).
Proof. apply list_fmap_delete. Qed.

Lemma not_in_delete_NoDup (l : list Item) (i : nat) (it : Item) :
  l !! i = Some it → NoDup (ids l) → id it ∉ ids (delete i l).
Proof.
  intros Hi Hnd. rewrite delete_take_drop, ids_app.
  rewrite <- (take_drop_middle l i it Hi), ids_app in Hnd. simpl in Hnd.
  apply NoDup_app in Hnd as (_ & Hdis & Htl).
  apply NoDup_cons in Htl as [Hnot _].
  apply not_elem_of_app. split; [|done].
  intros Hin. apply (Hdis _ Hin). left.
Qed.

(** ** The loop of [fillSlots] *)

Lemma fill_loop_spec (seen : gset string) (q : list Item) :
  ∀ v onScreen shown nv nq shown',
    fill_loop seen v q onScreen shown = (nv, nq, shown') →
    (∀ x, x ∈ onScreen ↔ x ∈ ids v) →
    ∃ added pre,
      nv = (v ++ added) ∧ shown' = (shown ++ ids added) ∧ q = (pre ++ nq) ∧
      NoDup (ids added) ∧
      (∀ x, x ∈ ids added → (x ∉ seen) ∧ (x ∉ ids v) ∧ x ∈ ids pre) ∧
      (length nv ≤ Nat.max (length v) SLOT_COUNT)%nat.
Proof.
  induction q as [|c q IH]; intros v onScreen shown nv nq shown' Hloop Hon;
    simpl in Hloop.
  - inversion Hloop; subst. exists [], []. rewrite !app_nil_r.
    repeat split; [constructor | set_solver.. | lia].
  - destruct (length v <? SLOT_COUNT)%nat eqn:Hlen.
    + destruct (has onScreen (id c) || has seen (id c)) eqn:Hskip.
      * apply IH in Hloop as (added & pre & -> & -> & -> & Hnd & Hin & Hb);
          [|done].
        exists added, (c :: pre). repeat split; try done.
        all: destruct (Hin x) as (? & ? & ?); try done.
        unfold ids in *. simpl. set_solver.
      * apply orb_false_elim in Hskip as [Hs1 Hs2].
        apply bool_decide_eq_false in Hs1, Hs2.
        apply IH in Hloop as (added & pre & -> & -> & -> & Hnd & Hin & Hb).
        2:{ intros x. rewrite ids_app. unfold ids at 2. simpl. set_solver. }
        apply Nat.ltb_lt in Hlen.
        exists (c :: added), (c :: pre).
        split; [by rewrite <- app_assoc|].
        split; [by rewrite <- app_assoc|].
        split; [done|].
        split.
        { unfold ids. simpl. apply NoDup_cons. split; [|done].
          intros Hc. destruct (Hin _ Hc) as (_ & Hv & _).
          apply Hv. rewrite ids_app. unfold ids at 2. simpl. set_solver. }
        split.
        { intros x Hx. unfold ids in Hx. simpl in Hx.
          apply elem_of_cons in Hx as [->|Hx].
          - split; [done|]. split; [by rewrite <- Hon|].
            unfold ids. simpl. set_solver.
          - destruct (Hin _ Hx) as (? & Hv & ?). split; [done|].
            split; [|unfold ids in *; simpl; set_solver].
            intros Hxv. apply Hv. rewrite ids_app. set_solver. }
        rewrite !length_app in Hb. rewrite !length_app. simpl in *.
        unfold SLOT_COUNT in *. lia.
    + inversion Hloop; subst. exists [], []. rewrite !app_nil_r.
      repeat split; [constructor | set_solver.. | lia].
Qed.

(** ** Pieces that leave the collections alone *)

Lemma Inv_shown (s s' : Session) : shown s' = shown s → Inv s → Inv s'.
Proof.
  unfold shown. intros H [? ? ? ? ? ? ?]. inversion H as [[Hv Hk Hs Hr]].
  constructor; rewrite ?Hv, ?Hk, ?Hs, ?Hr; done.
Qed.


Lemma fetchImages_begin_same query pageNum append (s : Session) :
  let s' := fst (fetchImages_begin query pageNum append s) in
  shown s' = shown s ∧ itemsQueue s' = itemsQueue s.
Proof. unfold fetchImages_begin. destruct (fetchingRef s); done. Qed.

Lemma analyze_finally_same myReq (s : Session) :
  let s' := analyze_finally myReq s in
  shown s' = shown s ∧ itemsQueue s' = itemsQueue s.
Proof. unfold analyze_finally. destruct (myReq =? currentRequestRef s); done. Qed.

Lemma analyze_catch_same myReq message (s : Session) :
  let s' := analyze_catch myReq message s in
  shown s' = shown s ∧ itemsQueue s' = itemsQueue s.
Proof. unfold analyze_catch. apply (analyze_finally_same myReq (setError _ s)). Qed.

Lemma analyze_tail_same myReq optimisticGot refined got (s : Session) :
  let s' := analyze_tail myReq optimisticGot refined got s in
  shown s' = shown s ∧ itemsQueue s' = itemsQueue s.
Proof.
  unfold analyze_tail.
  destruct (negb (myReq =? currentRequestRef s)); [apply analyze_finally_same|].
  destruct (0 <? got)%nat; [apply (analyze_finally_same _ (setActiveQuery _ s))|].
  destruct (optimisticGot =? 0)%nat;
    [apply (analyze_finally_same _ (setError _ s)) | apply analyze_finally_same].
Qed.

(** ** [fetchImages] keeps the invariants *)

Lemma fetchImages_resume_shown append r (s : Session) :
  shown (fst (fetchImages_resume append r s)) = shown s.
Proof. destruct r as [m|st b|[m|items]]; done. Qed.

(** The queue after a response: the old one (when appending) followed by
    [incoming], or the old one untouched when the fetch failed. *)
Lemma fetchImages_resume_queue append r (s : Session) :
  itemsQueue (fst (fetchImages_resume append r s)) =
    match r with
    | Ok (Json items) =>
        (if append then itemsQueue s else []) ++
        incoming_of (fresh_of (or_else items []) s) (itemsQueue s)
    | _ => itemsQueue s
    end.
Proof. destruct r as [m|st b|[m|items]]; try done. destruct append; done. Qed.

Lemma elem_of_incoming (items : list Item) (s : Session) (x : string) :
  x ∈ ids (incoming_of (fresh_of items s) (itemsQueue s)) ↔
  x ∈ ids items ∧ (x ∉ seenIdsRef s) ∧ (x ∉ ids (itemsQueue s)).
Proof.
  unfold incoming_of, fresh_of. rewrite !elem_of_ids_filter.
  rewrite elem_of_list_to_set. tauto.
Qed.

Lemma incoming_of_new (fresh prev : list Item) :
  (∀ it, it ∈ fresh → id it ∉ ids prev) → incoming_of fresh prev = fresh.
Proof.
  unfold incoming_of. induction fresh as [|it l IH]; intros Hnew; [done|].
  rewrite filter_cons_True.
  - f_equal. apply IH. intros it' Hit'. apply Hnew. by right.
  - rewrite elem_of_list_to_set. apply Hnew. left.
Qed.


Lemma fetchImages_resume_adds append r (s : Session) (x : string) :
  x ∈ ids (itemsQueue (fst (fetchImages_resume append r s))) →
  x ∈ ids (itemsQueue s) ∨ x ∉ seenIdsRef s.
Proof.
  rewrite fetchImages_resume_queue. destruct r as [m|st b|[m|items]]; auto.
  rewrite ids_app. intros [Hx|Hx]%elem_of_app.
  - destruct append; [by left | by apply not_elem_of_nil in Hx].
  - apply elem_of_incoming in Hx as (_ & Hx & _). by right.
Qed.

(** ** [fillSlots] keeps the invariants *)

(** A call that reads an empty queue writes nothing. *)
Lemma fillSlots_empty_queue (render s : Session) :
  length (itemsQueue render) = 0%nat → fillSlots render s = s.
Proof.
  intros H. unfold fillSlots. rewrite H.
  destruct (SLOT_COUNT <=? length (visible render))%nat; done.
Qed.

(** Either nothing is written, or the items [added] move from the front
    part [pre] of the queue to the end of the window and become seen. *)
Lemma fillSlots_cases (s : Session) :
  fillSlots s s = s ∨
  ∃ added pre nq,
    itemsQueue s = (pre ++ nq) ∧
    visible (fillSlots s s) = (visible s ++ added) ∧
    itemsQueue (fillSlots s s) = nq ∧
    kept (fillSlots s s) = kept s ∧
    seenIds (fillSlots s s) = (seenIdsRef s ∪ list_to_set (ids added)) ∧
    seenIdsRef (fillSlots s s) = (seenIdsRef s ∪ list_to_set (ids added)) ∧
    NoDup (ids added) ∧
    (∀ x, x ∈ ids added →
          (x ∉ seenIdsRef s) ∧ (x ∉ ids (visible s)) ∧ x ∈ ids pre) ∧
    (length (visible s ++ added) ≤ SLOT_COUNT)%nat.
Proof.
  unfold fillSlots.
  destruct (SLOT_COUNT <=? length (visible s))%nat eqn:Hfull; [by left|].
  destruct (length (itemsQueue s) =? 0)%nat; [by left|].
  destruct (fill_loop _ _ _ _ _) as [[nv nq] shown'] eqn:Hloop.
  apply fill_loop_spec in Hloop
    as (added & pre & -> & -> & Hq & Hnd & Hin & Hb).
  2:{ intros x. by rewrite elem_of_list_to_set. }
  destruct (length ([] ++ ids added) =? 0)%nat; [by left|].
  right. exists added, pre, nq. simpl.
  apply Nat.leb_gt in Hfull. unfold SLOT_COUNT in *.
  repeat split; try done; try (by apply Hin). lia.
Qed.

Lemma topUp_cases (s : Session) : topUp s = s ∨ topUp s = fillSlots s s.
Proof. unfold topUp. destruct (_ && _); auto. Qed.

Lemma fillSlots_Inv (s : Session) : Inv s → Inv (fillSlots s s).
Proof.
  intros HI.
  destruct (fillSlots_cases s)
    as [->|(added & pre & nq & Hq & Hv & Hq' & Hk & Hs & Hr & Hnd & Hin & Hb)];
    [done|].
  destruct HI as [Href Hvs Hks Hvd Hkd Hvk Hw].
  constructor; rewrite ?Hv, ?Hk, ?Hs, ?Hr, ?ids_app; try done.
  - intros x [Hx|Hx]%elem_of_app; apply elem_of_union.
    + left. rewrite Href. by apply Hvs.
    + right. by apply elem_of_list_to_set.
  - intros x Hx. apply elem_of_union. left. rewrite Href. by apply Hks.
  - apply NoDup_app. repeat split; try done.
    intros x Hx Hx'. by destruct (Hin x Hx') as (_ & ? & _).
  - intros x [Hx|Hx]%elem_of_app; [by apply Hvk|].
    intros Hxk. destruct (Hin x Hx) as (Hns & _). apply Hns.
    rewrite Href. by apply Hks.
Qed.


Lemma fillSlots_adds (s : Session) (x : string) :
  (x ∈ ids (itemsQueue (fillSlots s s)) → x ∈ ids (itemsQueue s)) ∧
  (x ∈ ids (visible (fillSlots s s)) →
   x ∈ ids (visible s) ∨ x ∉ seenIdsRef s).
Proof.
  destruct (fillSlots_cases s)
    as [->|(added & pre & nq & Hq & Hv & Hq' & Hk & Hs & Hr & Hnd & Hin & Hb)];
    [auto|].
  rewrite Hq', Hv, Hq, !ids_app. split.
  - intros Hx. apply elem_of_app. by right.
  - intros [Hx|Hx]%elem_of_app; [by left|]. right. by destruct (Hin x Hx).
Qed.

(** ** Slot actions keep the invariants *)

Lemma slot_Some (l : list Item) (idx : Z) (item : Item) :
  slot l idx = Some item →
  0 ≤ idx < Z.of_nat (length l) ∧ l !! Z.to_nat idx = Some item ∧
  splice1 idx l = delete (Z.to_nat idx) l.
Proof.
  unfold slot, splice1. destruct (idx <? 0) eqn:Hneg; [done|].
  intros H. apply Z.ltb_ge in Hneg. pose proof (lookup_lt_Some _ _ _ H).
  repeat split; try done; try lia. f_equal. lia.
Qed.

Lemma slot_None (l : list Item) (idx : Z) :
  idx < 0 ∨ Z.of_nat (length l) ≤ idx → slot l idx = None.
Proof.
  unfold slot. intros [H|H].
  - apply Z.ltb_lt in H. by rewrite H.
  - destruct (idx <? 0); [done|]. apply lookup_ge_None. lia.
Qed.

(** The last call of both handlers is [fetchImages], whose first piece
    touches none of the collections. *)
Ltac through_fetchImages_begin :=
  match goal with
  | |- context [fetchImages_begin ?q ?p ?a ?t] =>
      let Hsh := fresh "Hsh" in
      let Hq := fresh "Hq" in
      destruct (fetchImages_begin_same q p a t) as [Hsh Hq];
      unfold shown in Hsh;
      injection Hsh as ? ? ? ?;
      repeat match goal with
             | H : _ (fst (fetchImages_begin q p a t)) = _ |- _ => rewrite H; clear H
             end
  end.

Lemma handleAccept_fields (idx : Z) (s : Session) (item : Item) :
  slot (visible s) idx = Some item →
  let s' := fst (handleAccept idx s) in
  visible s' = delete (Z.to_nat idx) (visible s) ∧
  kept s' = item :: kept s ∧
  seenIds s' = (seenIds s ∪ {[ id item ]}) ∧
  seenIdsRef s' = (seenIds s ∪ {[ id item ]}) ∧
  itemsQueue s' = [].
Proof.
  intros H. unfold handleAccept. rewrite H. cbv zeta.
  destruct (slot_Some _ _ _ H) as (_ & _ & Hsp).
  through_fetchImages_begin. simpl. by rewrite Hsp.
Qed.

Lemma handleReject_fields (idx : Z) (s : Session) (item : Item) :
  slot (visible s) idx = Some item →
  let s' := fst (handleReject idx s) in
  visible s' = delete (Z.to_nat idx) (visible s) ∧
  kept s' = kept s ∧
  seenIds s' = (seenIds s ∪ {[ id item ]}) ∧
  seenIdsRef s' = (seenIds s ∪ {[ id item ]}) ∧
  itemsQueue s' = itemsQueue s.
Proof.
  intros H. unfold handleReject. rewrite H.
  destruct (slot_Some _ _ _ H) as (_ & _ & Hsp).
  set (s1 := removeSlotAt idx (markSeen (id item) s)).
  assert (Hfill : (if (length (itemsQueue s) =? 0)%nat
                   then fillSlots s s1 else s1) = s1).
  { destruct (length (itemsQueue s) =? 0)%nat eqn:E; [|done].
    apply fillSlots_empty_queue. by apply Nat.eqb_eq. }
  cbv zeta. fold s1. rewrite Hfill.
  destruct (_ && _).
  - through_fetchImages_begin. simpl. by rewrite Hsp.
  - simpl. by rewrite Hsp.
Qed.

(** Taking the item at [i] out of the window, with its id seen. *)
Lemma Inv_remove (s s' : Session) (i : nat) (item : Item) (moved : list Item) :
  Inv s → visible s !! i = Some item →
  visible s' = delete i (visible s) →
  kept s' = moved ++ kept s → ids moved `sublist_of` [id item] →
  seenIds s' = (seenIds s ∪ {[ id item ]}) →
  seenIdsRef s' = (seenIds s ∪ {[ id item ]}) →
  Inv s'.
Proof.
  intros [Href Hvs Hks Hvd Hkd Hvk Hw] Hi Hv Hk Hm Hs Hr.
  assert (Hsub : ∀ x, x ∈ ids (delete i (visible s)) → x ∈ ids (visible s)).
  { intros x Hx. eapply elem_of_sublist; [exact Hx|].
    apply fmap_sublist, sublist_delete. }
  assert (Hmv : ∀ x, x ∈ ids moved → x = id item).
  { intros x Hx. apply list_elem_of_singleton.
    eapply elem_of_sublist; [exact Hx | exact Hm]. }
  assert (Hit : id item ∈ ids (visible s)) by by eapply elem_of_ids_lookup.
  constructor; rewrite ?Hv, ?Hk, ?Hs, ?Hr, ?ids_app; try done.
  - intros x Hx. apply elem_of_union. left. by apply Hvs, Hsub.
  - intros x [Hx|Hx]%elem_of_app; apply elem_of_union.
    + right. by apply elem_of_singleton, Hmv.
    + left. by apply Hks.
  - eapply sublist_NoDup; [exact Hvd|]. apply fmap_sublist, sublist_delete.
  - apply NoDup_app. repeat split; try done.
    + eapply sublist_NoDup; [apply NoDup_singleton | exact Hm].
    + intros x Hx. rewrite (Hmv x Hx). by apply Hvk.
  - intros x Hx [Hxm|Hxk]%elem_of_app.
    + rewrite (Hmv x Hxm) in Hx.
      by apply (not_in_delete_NoDup (visible s) i item).
    + by apply (Hvk x); [apply Hsub|].
  - rewrite length_delete; [lia | by eexists].
Qed.

Lemma handleAccept_Inv (idx : Z) (s : Session) :
  Inv s → Inv (fst (handleAccept idx s)).
Proof.
  intros HI. destruct (slot (visible s) idx) as [item|] eqn:Hslot.
  - destruct (handleAccept_fields idx s item Hslot) as (Hv & Hk & Hs & Hr & _).
    destruct (slot_Some _ _ _ Hslot) as (_ & Hi & _).
    by apply (Inv_remove s _ (Z.to_nat idx) item [item]).
  - unfold handleAccept. by rewrite Hslot.
Qed.

Lemma handleReject_Inv (idx : Z) (s : Session) :
  Inv s → Inv (fst (handleReject idx s)).
Proof.
  intros HI. destruct (slot (visible s) idx) as [item|] eqn:Hslot.
  - destruct (handleReject_fields idx s item Hslot) as (Hv & Hk & Hs & Hr & _).
    destruct (slot_Some _ _ _ Hslot) as (_ & Hi & _).
    apply (Inv_remove s _ (Z.to_nat idx) item []); try done.
    apply sublist_nil_l.
  - unfold handleReject. by rewrite Hslot.
Qed.



(** ** The orchestrator keeps the invariants *)

Lemma analyzePoemAndSearch_fields (poem : string) (s : Session) :
  let s' := fst (fst (analyzePoemAndSearch poem s)) in
  visible s' = [] ∧ itemsQueue s' = [] ∧ kept s' = kept s ∧
  seenIds s' = seenIds s ∧ seenIdsRef s' = seenIdsRef s ∧
  currentRequestRef s' = currentRequestRef s + 1.
Proof.
  unfold analyzePoemAndSearch, fetchImages_begin. simpl.
  destruct (fetchingRef s); done.
Qed.

Lemma analyze_enrichment_same myReq optimisticGot aiResp (s : Session) :
  let s' := fst (analyze_enrichment myReq optimisticGot aiResp s) in
  shown s' = shown s ∧ itemsQueue s' = itemsQueue s.
Proof.
  unfold analyze_enrichment.
  destruct (negb (myReq =? currentRequestRef s)); [apply analyze_finally_same|].
  destruct aiResp as [[|]|]; try done;
    apply (analyze_finally_same myReq (setLoading false s)).
Qed.

Lemma analyze_body_same myReq optimisticGot body (s : Session) :
  let s' := fst (analyze_body myReq optimisticGot body s) in
  shown s' = shown s ∧ itemsQueue s' = itemsQueue s.
Proof.
  unfold analyze_body. destruct body as [m|[|q|m]]; simpl.
  - apply analyze_catch_same.
  - apply analyze_finally_same.
  - destruct (_ && _); [|apply analyze_finally_same].
    pose proof (fetchImages_begin_same (trim q) 1 false s) as [Hsh Hq].
    destruct (fetchImages_begin (trim q) 1 false s) as [s1 [req|]]; [done|].
    simpl in *.
    destruct (analyze_tail_same myReq optimisticGot (trim q) 0%nat s1) as [H1 H2].
    split; congruence.
  - apply analyze_catch_same.
Qed.

Lemma analyze_refined_same myReq optimisticGot refined r (s : Session) :
  let s' := analyze_refined myReq optimisticGot refined r s in
  shown s' = shown (fst (fetchImages_resume false r s)) ∧
  itemsQueue s' = itemsQueue (fst (fetchImages_resume false r s)).
Proof.
  unfold analyze_refined.
  destruct (fetchImages_resume false r s) as [s1 got]. apply analyze_tail_same.
Qed.

(** ** Every step keeps the invariants *)

Lemma step_Inv (s : Session) (e : Event) : Inv s → Inv (step s e).
Proof.
  intros HI. destruct e; simpl.
  - by apply (Inv_shown s).
  - destruct (topUp_cases s) as [->| ->]; [done | by apply fillSlots_Inv].
  - by apply handleAccept_Inv.
  - by apply handleReject_Inv.
  - apply (Inv_shown s); [apply fetchImages_resume_shown | done].
  - destruct (analyzePoemAndSearch_fields poem s) as (Hv & _ & Hk & Hs & Hr & _).
    destruct HI as [Href Hvs Hks Hvd Hkd Hvk Hw].
    constructor; rewrite ?Hv, ?Hk, ?Hs, ?Hr; try done.
    + by intros x ?%not_elem_of_nil.
    + constructor.
    + by intros x ?%not_elem_of_nil.
    + simpl. lia.
  - apply (Inv_shown s); [apply analyze_enrichment_same | done].
  - apply (Inv_shown s); [apply analyze_body_same | done].
  - destruct (analyze_refined_same myReq optimisticGot refined r s) as [Hsh _].
    apply (Inv_shown s); [|done].
    by rewrite Hsh, fetchImages_resume_shown.
Qed.


(** What a step adds to the queue or to the window has not been seen. *)
Lemma step_adds (s : Session) (e : Event) (x : string) :
  Inv s →
  (x ∈ ids (itemsQueue (step s e)) → x ∈ ids (itemsQueue s) ∨ x ∉ seenIds s) ∧
  (x ∈ ids (visible (step s e)) → x ∈ ids (visible s) ∨ x ∉ seenIds s).
Proof.
  intros HI. pose proof (inv_ref s HI) as Href.
  assert (Hsame : ∀ s', shown s' = shown s ∧ itemsQueue s' = itemsQueue s →
    (x ∈ ids (itemsQueue s') → x ∈ ids (itemsQueue s) ∨ x ∉ seenIds s) ∧
    (x ∈ ids (visible s') → x ∈ ids (visible s) ∨ x ∉ seenIds s)).
  { intros s' [Hsh Hq]. injection Hsh as Hv _ _ _. rewrite Hq, Hv. auto. }
  assert (Hdel : ∀ i, x ∈ ids (delete i (visible s)) → x ∈ ids (visible s)).
  { intros i Hx. eapply elem_of_sublist; [exact Hx|].
    apply fmap_sublist, sublist_delete. }
  assert (Hresume : ∀ s' append r,
    shown s' = shown (fst (fetchImages_resume append r s)) →
    itemsQueue s' = itemsQueue (fst (fetchImages_resume append r s)) →
    (x ∈ ids (itemsQueue s') → x ∈ ids (itemsQueue s) ∨ x ∉ seenIds s) ∧
    (x ∈ ids (visible s') → x ∈ ids (visible s) ∨ x ∉ seenIds s)).
  { intros s' append r Hsh Hq. rewrite fetchImages_resume_shown in Hsh.
    injection Hsh as Hv _ _ _. rewrite Hq, Hv, <- Href.
    split; [apply fetchImages_resume_adds | auto]. }
  destruct e; simpl.
  - by apply Hsame.
  - destruct (topUp_cases s) as [->| ->]; [auto|].
    rewrite <- Href. destruct (fillSlots_adds s x). auto.
  - destruct (slot (visible s) idx) as [item|] eqn:Hslot.
    + destruct (handleAccept_fields idx s item Hslot) as (Hv & _ & _ & _ & Hq).
      rewrite Hv, Hq. split; [by intros ?%not_elem_of_nil | eauto].
    + unfold handleAccept. rewrite Hslot. auto.
  - destruct (slot (visible s) idx) as [item|] eqn:Hslot.
    + destruct (handleReject_fields idx s item Hslot) as (Hv & _ & _ & _ & Hq).
      rewrite Hv, Hq. eauto.
    + unfold handleReject. rewrite Hslot. auto.
  - by apply (Hresume _ append r).
  - destruct (analyzePoemAndSearch_fields poem s) as (Hv & Hq & _).
    rewrite Hv, Hq. split; by intros ?%not_elem_of_nil.
  - apply Hsame, analyze_enrichment_same.
  - apply Hsame, analyze_body_same.
  - destruct (analyze_refined_same myReq optimisticGot refined r s) as [Hsh Hq].
    by apply (Hresume _ false r).
Qed.

(** ** Every run keeps the invariants *)

Lemma mounted_Inv : Inv mounted.
Proof.
  constructor; simpl;
    first [ done | apply NoDup_nil_2 | by intros x ?%not_elem_of_nil | lia ].
Qed.


Lemma run_app (s : Session) (evs evs' : list Event) :
  run s (evs ++ evs') = run (run s evs) evs'.
Proof. apply fold_left_app. Qed.

Lemma run_cons (s : Session) (e : Event) (evs : list Event) :
  run s (e :: evs) = run (step s e) evs.
Proof. done. Qed.

Lemma run_Inv (evs : list Event) : ∀ s, Inv s → Inv (run s evs).
Proof.
  induction evs as [|e evs IH]; intros s HI; [done|].
  simpl. by apply IH, step_Inv.
Qed.


(** ** The generation counter *)


Lemma fetchImages_resume_generation append r (s : Session) :
  currentRequestRef (fst (fetchImages_resume append r s)) = currentRequestRef s.
Proof. destruct r as [m|st b|[m|items]]; done. Qed.







(** ** Score tables *)

Lemma get_set_same (w : string) (v : float) (scores : ScoreTable) :
  get_score w (set_score w v scores) = Some v.
Proof.
  induction scores as [|[k u] rest IH]; simpl.
  - by rewrite String.eqb_refl.
  - destruct (String.eqb k w) eqn:E; simpl; rewrite E; done.
Qed.

Lemma get_set_other (w w' : string) (v : float) (scores : ScoreTable) :
  w ≠ w' → get_score w (set_score w' v scores) = get_score w scores.
Proof.
  intros Hne. induction scores as [|[k u] rest IH]; simpl.
  - apply String.eqb_neq in Hne. rewrite String.eqb_sym in Hne. by rewrite Hne.
  - destruct (String.eqb k w') eqn:E; simpl; destruct (String.eqb k w) eqn:E2;
      try done.
    apply String.eqb_eq in E, E2. congruence.
Qed.

Lemma get_bump_same (w : string) (inc : float) (scores : ScoreTable) :
  get_score w (bump w inc scores) =
  Some (or_zero (get_score w scores) + inc)%float.
Proof. apply get_set_same. Qed.

Lemma get_bump_other (w w' : string) (inc : float) (scores : ScoreTable) :
  w ≠ w' → get_score w (bump w' inc scores) = get_score w scores.
Proof. apply get_set_other. Qed.

Lemma occurrences_cons (w t : string) (tokens : list string) :
  occurrences w (t :: tokens) =
  if String.eqb w t then S (occurrences w tokens) else occurrences w tokens.
Proof. unfold occurrences. simpl. destruct (String.eqb w t); done. Qed.

Lemma preseed_fold (tokens : list string) :
  ∀ (scores : ScoreTable) (w : string),
    get_score w
      (fold_left (fun sc t => if has COLOR_WORDS t then bump t 0.6%float sc else sc)
                 tokens scores) =
    if has COLOR_WORDS w
    then Nat.iter (occurrences w tokens) nudged (get_score w scores)
    else get_score w scores.
Proof.
  induction tokens as [|t tokens IH]; intros scores w; simpl.
  - destruct (has COLOR_WORDS w); done.
  - rewrite IH, occurrences_cons.
    destruct (String.eqb w t) eqn:E.
    + apply String.eqb_eq in E as <-.
      destruct (has COLOR_WORDS w); [|done].
      by rewrite Nat.iter_succ_r, get_bump_same.
    + apply String.eqb_neq in E.
      destruct (has COLOR_WORDS t); [|done]. by rewrite get_bump_other.
Qed.

(** ** [fillSlots] and the size of the window *)

Lemma fillSlots_window (render s : Session) :
  (length (visible (fillSlots render s)) ≤
   Nat.max (length (visible s)) SLOT_COUNT)%nat.
Proof.
  unfold fillSlots.
  destruct (SLOT_COUNT <=? length (visible render))%nat eqn:Hfull; [lia|].
  destruct (length (itemsQueue render) =? 0)%nat; [lia|].
  destruct (fill_loop _ _ _ _ _) as [[nv nq] shown'] eqn:Hloop.
  apply fill_loop_spec in Hloop as (added & pre & -> & -> & _ & _ & _ & Hb).
  2:{ intros x. by rewrite elem_of_list_to_set. }
  destruct (length _ =? 0)%nat; [lia|]. simpl.
  apply Nat.leb_gt in Hfull. lia.
Qed.

(** ** Worked examples *)

Example tokenize_query :
  tokenize "lonely, dark, single figure, horizon" =
  ["lonely"; "dark"; "single"; "figure"; "horizon"].
Proof. reflexivity. Qed.

Example tokenize_keeps_hyphens_and_short_words :
  tokenize "  Low-Light: a  GOLDEN hour!" = ["low-light"; "a"; "golden"; "hour"].
Proof. reflexivity. Qed.

Example split_ws_keeps_outer_empty_pieces :
  split_ws " a  b " "" false = [""; "a"; "b"; ""].
Proof. reflexivity. Qed.

Example posBias_first_rule_wins :
  posBias "lonely" = 1.2%float ∧ posBias "landscape" = 1.15%float ∧
  posBias "low-light" = 1.1%float ∧ posBias "horizon" = 1.05%float ∧
  posBias "dark" = 1.0%float.
Proof. repeat split. Qed.

Example domainBias_by_lexicon :
  domainBias "golden" = 1.25%float ∧ domainBias "lonely" = 1.2%float ∧
  domainBias "horizon" = 1.15%float ∧ domainBias "dark" = 1.0%float.
Proof. vm_compute. repeat split. Qed.

Example root_of_longest_ending :
  root_of <$> ["boxes"; "running"; "lonely"; "cats"; "rose"] =
  ["box"; "runn"; "lone"; "cat"; "rose"].
Proof. reflexivity. Qed.

Example topKeywords_one_word_per_root :
  topKeywords [("cat", 1%float); ("cats", 2%float); ("dog", 1%float)] 12 =
  ["cats"; "dog"].
Proof. vm_compute. reflexivity. Qed.

Example topKeywords_ties_in_creation_order :
  topKeywords [("dusk", 1%float); ("alley", 1%float); ("mist", 1%float)] 2 =
  ["dusk"; "alley"].
Proof. vm_compute. reflexivity. Qed.

Example Object_entries_indices_first :
  fst <$> Object_entries [("dusk", 1%float); ("35", 1%float); ("007", 1%float);
                          ("4", 1%float)] =
  ["4"; "35"; "dusk"; "007"].
Proof. vm_compute. reflexivity. Qed.

Example preseed_twice_golden :
  preseedColorHintsFromUserText [] "golden hour, golden light, dark" =
  [("golden", 1.2%float)].
Proof. vm_compute. reflexivity. Qed.

(** Scenario A: the first page of five items fills the three slots and
    leaves two items queued. *)
Example first_page_fills_the_window :
  ids (visible after_first_page) = ["a"; "b"; "c"] ∧
  ids (itemsQueue after_first_page) = ["d"; "e"] ∧
  seenIds after_first_page = {[ "a"; "b"; "c" ]} ∧
  seenIdsRef after_first_page = {[ "a"; "b"; "c" ]} ∧
  loading after_first_page = false ∧ fetchingRef after_first_page = false.
Proof. vm_compute. repeat split. Qed.

(** A rejection with a short queue starts the prefetch of the next page;
    the top-up then moves the next queued item into the free slot. *)
Example reject_prefetches_next_page :
  snd (handleReject 0 after_first_page) =
    Some (GetImages "lonely, dark, single figure, horizon" 2 true) ∧
  ids (visible awaiting_page_2) = ["b"; "c"; "d"] ∧
  ids (itemsQueue awaiting_page_2) = ["e"] ∧
  page awaiting_page_2 = 2 ∧ fetchingRef awaiting_page_2 = true.
Proof. vm_compute. repeat split. Qed.

(** A fetch asked for while another one is in flight is dropped. *)
Example accept_during_prefetch_sends_nothing :
  snd (handleAccept 0 awaiting_page_2) = None ∧
  ids (kept (fst (handleAccept 0 awaiting_page_2))) = ["b"].
Proof. vm_compute. repeat split. Qed.

(** * The claims *)





(** C3, as far as it goes wrong: in scenario B the keyword "lonely" of
    the active query is among the keywords of the refined query. *)
Lemma scenario_B_keeps_lonely :
  "lonely" ∈ refineKeywords after_first_page (item_of "a" "Dark Horizon Silhouette").
Proof. vm_compute. do 3 right. left. Qed.

(** C3 (scenario B): accepting the item titled "Dark Horizon Silhouette"
    with nothing kept yet refines the query to the six scored words.
    "horizon", "dark" and "silhouette" come first; "lonely", scored from
    the active query alone, follows them, since six candidates are fewer
    than the twelve keywords allowed. *)
Theorem scenario_B :
  let item := item_of "a" "Dark Horizon Silhouette" in
  activeQuery after_first_page = "lonely, dark, single figure, horizon" ∧
  userText after_first_page = "lonely, dark, single figure, horizon" ∧
  kept after_first_page = [] ∧
  slot (visible after_first_page) 0 = Some item ∧
  refineKeywords after_first_page item =
    ["horizon"; "dark"; "silhouette"; "lonely"; "single"; "figure"] ∧
  refineQueryWith after_first_page item =
    "horizon dark silhouette lonely single figure" ∧
  activeQuery (fst (handleAccept 0 after_first_page)) =
    "horizon dark silhouette lonely single figure".
Proof. vm_compute. repeat split. Qed.

(** C4 (window bound): after any sequence of events the window holds at
    most [SLOT_COUNT] items, and a call of [fillSlots] never leaves more
    than [SLOT_COUNT] items in a window that was within the bound. *)
Theorem window_bound (evs : list Event) :
  (length (visible (run mounted evs)) ≤ SLOT_COUNT)%nat ∧
  (∀ render s, (length (visible (fillSlots render s)) ≤
                Nat.max (length (visible s)) SLOT_COUNT)%nat).
Proof.
  split; [|apply fillSlots_window].
  apply inv_window, run_Inv, mounted_Inv.
Qed.

(** C5, as far as it goes wrong: an OK answer of the enrichment route
    whose body is not JSON makes [aiResp.json()] reject; the [catch]
    block stores the message of that exception in the error state, which
    was [null] before. *)
Lemma unparseable_enrichment_sets_error :
  let body := BadJson (Some "Unexpected token < in JSON at position 0") in
  let s' := fst (analyze_body 1 3 body reading_body) in
  currentRequestRef reading_body = 1 ∧
  error reading_body = None ∧
  error s' = Some "Unexpected token < in JSON at position 0".
Proof. vm_compute. repeat split. Qed.

(** C5 (enrichment failures): a call that times out, fails on the
    network or answers with a status that is not OK ends silently, in
    the same way for the three: at most the loading flag is cleared, and
    queue, window, kept list, seen set, query, page and error stay as
    they are.  An OK answer whose body cannot be parsed does not stop
    the orchestrator either, and leaves the same fields alone except the
    error, which receives the message of the exception. *)
Theorem enrichment_failure_is_absorbed (myReq : Z) (optimisticGot : nat)
    (message : option string) (s : Session) :
  analyze_enrichment myReq optimisticGot None s = (settled myReq s, Finished) ∧
  analyze_enrichment myReq optimisticGot (Some false) s =
    (settled myReq s, Finished) ∧
  analyze_body myReq optimisticGot (BadJson message) s =
    (settled myReq (setError (Some (or_else message "Analysis failed")) s),
     Finished).
Proof.
  unfold analyze_enrichment, analyze_body, analyze_catch, analyze_finally,
    settled.
  destruct (myReq =? currentRequestRef s) eqn:E; simpl; rewrite ?E; done.
Qed.

(** C6, as far as it goes wrong: the prefetch of page 2 returns 3, the
    number of fetched items that are not seen, although one of them is in
    the queue already and only two are added. *)
Lemma fetch_count_exceeds_added :
  let r := Ok (Json (Some second_page)) in
  let result := fetchImages_resume true r awaiting_page_2 in
  ids (itemsQueue awaiting_page_2) = ["e"] ∧
  ids (itemsQueue (fst result)) = ["e"; "f"; "g"] ∧
  snd result = 3%nat ∧
  length (enqueued r awaiting_page_2) = 2%nat.
Proof. vm_compute. repeat split. Qed.

(** C6 (enqueue count): the queue after a response is what was retained
    of the old queue followed by the enqueued items; the number returned
    is the number of fetched items that pass the seen filter, which is
    never less than the number of enqueued items and equal to it when
    none of those items is in the queue already. *)
Theorem fetch_count (append : bool) (r : ImagesResponse) (s : Session) :
  let result := fetchImages_resume append r s in
  itemsQueue (fst result) = retained append r s ++ enqueued r s ∧
  snd result = length (survivors r s) ∧
  (length (enqueued r s) ≤ snd result)%nat ∧
  ((∀ it, it ∈ survivors r s → id it ∉ ids (itemsQueue s)) →
   enqueued r s = survivors r s ∧ snd result = length (enqueued r s)).
Proof.
  intros result.
  assert (Hn : snd result = length (survivors r s)).
  { unfold result. destruct r as [m|st b|[m|items]]; done. }
  split.
  { unfold result. rewrite fetchImages_resume_queue.
    destruct r as [m|st b|[m|items]]; simpl; rewrite ?app_nil_r; done. }
  split; [done|]. rewrite Hn. split; [apply length_filter|].
  intros Hnew.
  assert (He : enqueued r s = survivors r s); [|by rewrite He].
  by apply incoming_of_new.
Qed.

(** C7 (fallback non-emptiness): with a non-empty active query
    [refineQueryWith] returns a non-empty string, and it returns the
    active query itself when no keyword was found. *)
Theorem refineQueryWith_nonempty (s : Session) (item : Item) :
  activeQuery s ≠ "" →
  refineQueryWith s item ≠ "" ∧
  (refineKeywords s item = [] → refineQueryWith s item = activeQuery s).
Proof.
  intros Hq. unfold refineQueryWith. split.
  - destruct (join " " (refineKeywords s item)) eqn:E; simpl; [done|congruence].
  - intros ->. done.
Qed.

Lemma refineQueryWith_nonempty_witness :
  activeQuery unscorable ≠ "" ∧
  refineQueryWith unscorable (item_of "z" "") ≠ "" ∧
  (refineKeywords unscorable (item_of "z" "") = [] →
   refineQueryWith unscorable (item_of "z" "") = activeQuery unscorable).
Proof.
  split; [vm_compute; discriminate|].
  apply (refineQueryWith_nonempty unscorable (item_of "z" "")).
  vm_compute; discriminate.
Defined.

(** C8 (colour preseed): in the table that
    [preseedColorHintsFromUserText] returns, the entry of a colour word
    is its old entry (0 when it had none) with 0.6 added once for every
    occurrence of the word among the tokens of the text, whatever its
    length and whether or not it is a stop word; every other entry is
    the old one. *)
Theorem preseed_adds_per_occurrence (scores : ScoreTable) (text w : string) :
  get_score w (preseedColorHintsFromUserText scores text) =
  if has COLOR_WORDS w
  then Nat.iter (occurrences w (tokenize text)) nudged (get_score w scores)
  else get_score w scores.
Proof. apply preseed_fold. Qed.

(** C9 (out-of-range slot actions): for an index with no item in the
    window, [handleAccept] and [handleReject] return the session as it
    is and send nothing. *)
Theorem out_of_range_slot_is_noop (s : Session) (idx : Z) :
  idx < 0 ∨ Z.of_nat (length (visible s)) ≤ idx →
  handleAccept idx s = (s, None) ∧ handleReject idx s = (s, None).
Proof.
  intros H. apply slot_None in H.
  unfold handleAccept, handleReject. by rewrite H.
Qed.

Lemma out_of_range_slot_is_noop_witness :
  (3 < 0 ∨ Z.of_nat (length (visible after_first_page)) ≤ 3) ∧
  handleAccept 3 after_first_page = (after_first_page, None) ∧
  handleReject 3 after_first_page = (after_first_page, None).
Proof.
  split; [right; vm_compute; discriminate|].
  apply (out_of_range_slot_is_noop after_first_page 3).
  right; vm_compute; discriminate.
Defined.

(** C10 (distinct ids within a collection): after any sequence of
    events, whatever the provider answered, no id occurs twice in the
    window and no id occurs twice in the kept list. *)
Theorem window_and_kept_distinct (evs : list Event) :
  NoDup (ids (visible (run mounted evs))) ∧
  NoDup (ids (kept (run mounted evs))).
Proof.
  pose proof (run_Inv evs mounted mounted_Inv) as HI.
  split; [apply (inv_visible_distinct _ HI) | apply (inv_kept_distinct _ HI)].
Qed.

(** * Further properties *)

(** ** Tokens *)

Lemma every_char_spec (p : ascii → bool) :
  every_char p = true → ∀ c, p c = true.
Proof.
  unfold every_char. rewrite forallb_forall. intros H c.
  rewrite <- (ascii_nat_embedding c). apply H, in_seq.
  pose proof (nat_ascii_bounded c). lia.
Qed.

Lemma normalized_char (c : ascii) :
  is_space (blank_other (lower_char c)) || token_char (blank_other (lower_char c))
  = true.
Proof. revert c. apply every_char_spec. vm_compute. reflexivity. Qed.

Lemma token_char_fixed (c : ascii) :
  token_char c = true → blank_other (lower_char c) = c ∧ is_space c = false.
Proof.
  assert (H : ∀ c, implb (token_char c)
                (Ascii.eqb (blank_other (lower_char c)) c && negb (is_space c))
              = true).
  { apply every_char_spec. vm_compute. reflexivity. }
  intros Ht. specialize (H c). rewrite Ht in H. unfold implb in H.
  apply andb_true_iff in H as [H1 H2]. apply Ascii.eqb_eq in H1.
  apply negb_true_iff in H2. done.
Qed.

Lemma all_chars_app (p : ascii → bool) (s t : string) :
  all_chars p (s +:+ t) = all_chars p s && all_chars p t.
Proof.
  induction s as [|c s IH]; [done|].
  change (String c s +:+ t) with (String c (s +:+ t)).
  cbn [all_chars]. by rewrite IH, andb_assoc.
Qed.

(** The pieces of [split_ws] are made of [cur] and of the characters of
    [s] that are not white space. *)
Lemma split_ws_pieces (p : ascii → bool) (s : string) :
  ∀ cur b t,
    all_chars (λ c, p c || is_space c) s = true →
    all_chars p cur = true →
    t ∈ split_ws s cur b → all_chars p t = true.
Proof.
  induction s as [|c s IH]; intros cur b t Hs Hcur Ht;
    cbn [split_ws all_chars] in *.
  - apply list_elem_of_singleton in Ht. by subst.
  - apply andb_true_iff in Hs as [Hc Hs].
    destruct (is_space c) eqn:Hsp.
    + destruct b.
      * by apply (IH cur true).
      * apply elem_of_cons in Ht as [->|Ht]; [done|]. by apply (IH "" true).
    + apply (IH (cur +:+ String c "") false); try done.
      rewrite all_chars_app. cbn [all_chars]. rewrite orb_false_r in Hc.
      by rewrite Hcur, Hc.
Qed.

Lemma all_chars_normalized (text : string) :
  all_chars (λ c, token_char c || is_space c)
            (map_chars blank_other (toLowerCase text)) = true.
Proof.
  unfold toLowerCase.
  induction text as [|c text IH]; cbn [all_chars map_chars]; [done|].
  rewrite IH, andb_true_r, orb_comm. apply normalized_char.
Qed.

Lemma tokenize_clean (text t : string) : t ∈ tokenize text → clean_token t.
Proof.
  unfold tokenize. intros Ht. apply list_elem_of_In, filter_In in Ht as [Ht Hne].
  apply list_elem_of_In in Ht. split.
  - by destruct t.
  - exact (split_ws_pieces token_char _ "" false t
             (all_chars_normalized text) eq_refl Ht).
Qed.

(** ** Joining and splitting *)

Lemma append_cons (c : ascii) (s t : string) :
  String c s +:+ t = String c (s +:+ t).
Proof. reflexivity. Qed.

Lemma append_empty_r (s : string) : s +:+ "" = s.
Proof.
  induction s as [|c s IH]; [done|]. by rewrite append_cons, IH.
Qed.

Lemma append_assoc (s t u : string) : (s +:+ t) +:+ u = s +:+ (t +:+ u).
Proof.
  induction s as [|c s IH]; [done|]. by rewrite !append_cons, IH.
Qed.

Lemma map_chars_app (f : ascii → ascii) (s t : string) :
  map_chars f (s +:+ t) = map_chars f s +:+ map_chars f t.
Proof.
  induction s as [|c s IH]; [done|].
  rewrite append_cons. cbn [map_chars]. by rewrite append_cons, IH.
Qed.

(** Lower-casing and blanking leave a word of token characters alone. *)
Lemma normalize_clean (w : string) :
  all_chars token_char w = true →
  map_chars blank_other (toLowerCase w) = w.
Proof.
  unfold toLowerCase.
  induction w as [|c w IH]; cbn [all_chars map_chars]; [done|].
  intros [Hc Hw]%andb_true_iff. rewrite IH by done.
  by destruct (token_char_fixed c Hc) as [-> _].
Qed.

(** [split_ws] reads a word of token characters into [cur]. *)
Lemma split_ws_word (w : string) :
  ∀ s cur b,
    w ≠ "" → all_chars token_char w = true →
    split_ws (w +:+ s) cur b = split_ws s (cur +:+ w) false.
Proof.
  induction w as [|c w IH]; intros s cur b Hne Hw; [done|].
  cbn [all_chars] in Hw. apply andb_true_iff in Hw as [Hc Hw].
  destruct (token_char_fixed c Hc) as [_ Hsp].
  rewrite append_cons. cbn [split_ws]. rewrite Hsp.
  destruct w as [|c' w'].
  - done.
  - rewrite IH by done. by rewrite append_assoc.
Qed.

Lemma join_cons_cons (w w2 : string) (l : list string) :
  join " " (w :: w2 :: l) = w +:+ String " " (join " " (w2 :: l)).
Proof. reflexivity. Qed.

(** Splitting the words joined by single spaces gives the words back. *)
Lemma split_join (l : list string) :
  Forall clean_token l →
  ∀ b, List.filter truthy (split_ws (join " " l) "" b) = l.
Proof.
  induction l as [|w l IH]; intros Hl b; [done|].
  apply Forall_cons in Hl as [[Hne Hw] Hl].
  assert (Htr : truthy w = true) by by destruct w.
  destruct l as [|w2 l].
  - change (join " " [w]) with w. rewrite <- (append_empty_r w) at 1.
    rewrite split_ws_word by done.
    change (List.filter truthy [w] = [w]). cbn [List.filter]. by rewrite Htr.
  - rewrite join_cons_cons, split_ws_word by done.
    change (List.filter truthy (w :: split_ws (join " " (w2 :: l)) "" true)
            = w :: w2 :: l).
    cbn [List.filter]. rewrite Htr. f_equal. by apply IH.
Qed.

Lemma normalize_join (l : list string) :
  Forall clean_token l →
  map_chars blank_other (toLowerCase (join " " l)) = join " " l.
Proof.
  unfold toLowerCase. induction l as [|w l IH]; intros Hl; [done|].
  apply Forall_cons in Hl as [[Hne Hw] Hl].
  destruct l as [|w2 l].
  - change (join " " [w]) with w. by apply normalize_clean.
  - rewrite join_cons_cons, !map_chars_app. cbn [map_chars].
    rewrite IH by done. f_equal. by apply normalize_clean.
Qed.

Lemma tokenize_join (l : list string) :
  Forall clean_token l → tokenize (join " " l) = l.
Proof.
  intros Hl. unfold tokenize. rewrite normalize_join by done.
  by apply split_join.
Qed.

(** ** Keys of a score table *)

Lemma keys_cons (k : string) (v : float) (scores : ScoreTable) :
  keys ((k, v) :: scores) = k :: keys scores.
Proof. reflexivity. Qed.

Lemma elem_of_keys (w : string) (scores : ScoreTable) :
  w ∈ keys scores ↔ is_Some (get_score w scores).
Proof.
  induction scores as [|[k v] rest IH].
  - split; [by intros ?%not_elem_of_nil | by intros [? ?]].
  - rewrite keys_cons, elem_of_cons, IH. cbn [get_score].
    destruct (String.eqb k w) eqn:E.
    + apply String.eqb_eq in E. split; [by eexists | auto].
    + apply String.eqb_neq in E. split; [by intros [?|?] | auto].
Qed.

Lemma keys_set_score (w : string) (v : float) (scores : ScoreTable) :
  keys (set_score w v scores) =
  if bool_decide (w ∈ keys scores) then keys scores else keys scores ++ [w].
Proof.
  induction scores as [|[k u] rest IH]; [done|].
  cbn [set_score]. destruct (String.eqb k w) eqn:E.
  - apply String.eqb_eq in E as ->. rewrite !keys_cons.
    rewrite bool_decide_eq_true_2; [done | left].
  - apply String.eqb_neq in E. rewrite !keys_cons, IH.
    destruct (bool_decide (w ∈ keys rest)) eqn:D.
    + apply bool_decide_eq_true in D.
      rewrite bool_decide_eq_true_2; [done | by right].
    + apply bool_decide_eq_false in D.
      rewrite bool_decide_eq_false_2; [done|].
      by intros [?|?]%elem_of_cons.
Qed.

Lemma keys_bump (w : string) (inc : float) (scores : ScoreTable) :
  keys (bump w inc scores) =
  if bool_decide (w ∈ keys scores) then keys scores else keys scores ++ [w].
Proof. apply keys_set_score. Qed.

(** One pass of a scoring loop: the tokens that pass [keep] are bumped
    by [inc]. *)
Lemma scoring_loop_keys (keep : string → bool) (inc : string → float)
    (tokens : list string) :
  ∀ scores,
    let result :=
      fold_left (λ sc w, if keep w then bump w (inc w) sc else sc) tokens scores in
    keys scores `prefix_of` keys result ∧
    (∀ w, w ∈ keys result ↔ w ∈ keys scores ∨ (w ∈ tokens ∧ keep w = true)) ∧
    (∀ w, ¬ (w ∈ tokens ∧ keep w = true) → get_score w result = get_score w scores).
Proof.
  induction tokens as [|t tokens IH]; intros scores; simpl.
  - split; [done|]. split; [|done]. intros w. split; [auto|].
    intros [?|[?%not_elem_of_nil _]]; done.
  - destruct (keep t) eqn:Hk.
    + destruct (IH (bump t (inc t) scores)) as (Hpre & Hkeys & Hget).
      assert (Hb : ∀ w, w ∈ keys (bump t (inc t) scores) ↔ w ∈ keys scores ∨ w = t).
      { intros w. rewrite keys_bump. case_bool_decide as D.
        - split; [auto | by intros [?| ->]].
        - rewrite elem_of_app, list_elem_of_singleton. done. }
      split.
      { etransitivity; [|exact Hpre]. rewrite keys_bump.
        case_bool_decide; [done | by apply prefix_app_r]. }
      split.
      { intros w. rewrite Hkeys, Hb, elem_of_cons. split.
        - intros [[?| ->]|[? ?]]; auto.
        - intros [?|[[->|?] ?]]; auto. }
      intros w Hw. rewrite Hget.
      * apply get_bump_other. intros ->. apply Hw. split; [left | done].
      * intros [? ?]. apply Hw. split; [by right | done].
    + destruct (IH scores) as (Hpre & Hkeys & Hget).
      split; [done|]. split.
      { intros w. rewrite Hkeys, elem_of_cons. split.
        - intros [?|[? ?]]; auto.
        - intros [?|[[->|?] ?]]; auto. congruence. }
      intros w Hw. apply Hget. intros [? ?]. apply Hw. split; [by right|done].
Qed.

Lemma scoreTokensFrom_loop (text : string) (weight : float) (scores : ScoreTable) :
  scoreTokensFrom text weight scores =
  fold_left (λ sc w, if scorable w
                     then bump w (weight * posBias w * domainBias w)%float sc
                     else sc)
            (tokenize text) scores.
Proof.
  unfold scoreTokensFrom, scorable. generalize (tokenize text) as tokens.
  intros tokens. revert scores.
  induction tokens as [|t tokens IH]; intros scores; simpl; [done|].
  rewrite IH. by destruct (has STOP t || (String.length t <? 3)%nat).
Qed.

(** ** Sorting keeps the entries *)

Lemma sort_insert_perm cmp (x : string * float) (l : list (string * float)) :
  sort_insert cmp x l ≡ₚ x :: l.
Proof.
  induction l as [|y l IH]; simpl; [done|].
  destruct (cmp y x <? 0)%float; [|done].
  rewrite IH. apply perm_swap.
Qed.

Lemma sort_perm cmp (l : list (string * float)) : sort cmp l ≡ₚ l.
Proof.
  unfold sort. induction l as [|x l IH]; simpl; [done|].
  by rewrite sort_insert_perm, IH.
Qed.

Lemma insert_index_perm (e : N * (string * float)) l :
  insert_index e l ≡ₚ e :: l.
Proof.
  induction l as [|e' l IH]; simpl; [done|].
  destruct (fst e <? fst e')%N; [done|]. rewrite IH. apply perm_swap.
Qed.

Lemma Object_entries_perm (scores : ScoreTable) : Object_entries scores ≡ₚ scores.
Proof.
  unfold Object_entries. induction scores as [|kv scores IH]; simpl; [done|].
  destruct (array_index (fst kv)) as [n|].
  - rewrite insert_index_perm. simpl. by rewrite IH.
  - rewrite <- Permutation_middle. by rewrite IH.
Qed.

Lemma sorted_entries_keys (scores : ScoreTable) :
  keys (sort by_score_desc (Object_entries scores)) ≡ₚ keys scores.
Proof. unfold keys. by rewrite sort_perm, Object_entries_perm. Qed.

(** ** The loop of [topKeywords] *)

Lemma pick_roots_spec (max : nat) (entries : list (string * float)) :
  ∀ picked seenRoots,
    ∃ new,
      pick_roots entries picked seenRoots max = picked ++ new ∧
      new `sublist_of` keys entries ∧
      NoDup (root_of <$> new) ∧
      (∀ w, w ∈ new → root_of w ∉ seenRoots) ∧
      (length (picked ++ new) ≤ Nat.max (S (length picked)) max)%nat ∧
      (entries ≠ [] → (∀ w, w ∈ keys entries → root_of w ∉ seenRoots) →
       new ≠ []) ∧
      ((length (picked ++ new) < max)%nat →
       ∀ w, w ∈ keys entries →
            root_of w ∈ seenRoots ∨ root_of w ∈ root_of <$> new).
Proof.
  induction entries as [|[w v] entries IH]; intros picked seenRoots.
  - exists []. rewrite app_nil_r. simpl. repeat split; try done.
    + apply NoDup_nil_2.
    + by intros ? ?%not_elem_of_nil.
    + lia.
    + by intros ? ? ?%not_elem_of_nil.
  - cbn [pick_roots]. unfold has. case_bool_decide as Hseen.
    + destruct (IH picked seenRoots) as (new & -> & Hsub & Hnd & Hfresh & Hlen & Hne & Hall).
      exists new. repeat split; try done.
      * by apply sublist_cons.
      * intros _ Hev. exfalso. apply (Hev w); [left | done].
      * intros Hlt w' [->|Hw']%elem_of_cons; [by left | by apply Hall].
    + destruct (max <=? length (picked ++ [w]))%nat eqn:Hmax.
      * exists [w]. apply Nat.leb_le in Hmax. rewrite length_app in *. simpl in *.
        repeat split; try done.
        -- apply sublist_skip, sublist_nil_l.
        -- apply NoDup_singleton.
        -- by intros w' ->%list_elem_of_singleton.
        -- lia.
        -- lia.
      * apply Nat.leb_gt in Hmax.
        destruct (IH (picked ++ [w]) (seenRoots ∪ {[ root_of w ]}))
          as (new & -> & Hsub & Hnd & Hfresh & Hlen & Hne & Hall).
        exists (w :: new). rewrite <- app_assoc in *. simpl in *.
        split; [done|]. split; [by apply sublist_skip|].
        split.
        { apply NoDup_cons. split; [|done]. intros Hin.
          apply list_elem_of_fmap in Hin as (w' & Heq & Hw').
          apply (Hfresh w' Hw'). rewrite <- Heq. set_solver. }
        split.
        { intros w' [->|Hw']%elem_of_cons; [done|].
          intros Hs. apply (Hfresh w' Hw'). set_solver. }
        split.
        { rewrite !length_app in *. simpl in *. lia. }
        split; [done|].
        intros Hlt w' [->|Hw']%elem_of_cons.
        { right. left. }
        destruct (Hall Hlt w' Hw') as [Hs|Hs].
        -- apply elem_of_union in Hs as [Hs|Hs]; [by left|].
           apply elem_of_singleton in Hs as ->. right. left.
        -- right. by right.
Qed.

(** ** [topKeywords] *)

Lemma topKeywords_spec (scores : ScoreTable) (max : nat) :
  ∃ entries,
    entries ≡ₚ scores ∧
    topKeywords scores max `sublist_of` keys entries ∧
    NoDup (root_of <$> topKeywords scores max) ∧
    (length (topKeywords scores max) ≤ Nat.max 1 max)%nat ∧
    (scores ≠ [] → topKeywords scores max ≠ []) ∧
    ((length (topKeywords scores max) < max)%nat →
     ∀ w, w ∈ keys scores → root_of w ∈ root_of <$> topKeywords scores max).
Proof.
  unfold topKeywords.
  set (entries := sort by_score_desc (Object_entries scores)).
  assert (Hperm : entries ≡ₚ scores).
  { unfold entries. by rewrite sort_perm, Object_entries_perm. }
  destruct (pick_roots_spec max entries [] ∅)
    as (new & -> & Hsub & Hnd & _ & Hlen & Hne & Hall).
  exists entries. simpl in *. repeat split; try done.
  - intros Hs. apply Hne; [|set_solver].
    intros ->. by apply Permutation_nil_l in Hperm.
  - intros Hlt w Hw. destruct (Hall Hlt w) as [Hs|Hs]; [|set_solver|done].
    unfold keys in *. by rewrite Hperm.
Qed.

(** X4: the keywords that [topKeywords] returns are words of the
    table, no two of them with the same root, and so no word twice. *)
Theorem topKeywords_selects_keys (scores : ScoreTable) (max : nat) :
  topKeywords scores max ⊆ keys scores ∧
  NoDup (root_of <$> topKeywords scores max) ∧
  NoDup (topKeywords scores max).
Proof.
  destruct (topKeywords_spec scores max) as (entries & Hperm & Hsub & Hnd & _).
  split; [|split; [done | by apply NoDup_fmap_1 in Hnd]].
  intros w Hw. unfold keys. rewrite <- Hperm.
  eapply elem_of_sublist; [exact Hw | exact Hsub].
Qed.

(** X5: [topKeywords] returns at most [max] words, one word when
    [max] is 0 (the test of the cap follows the push), and no word only
    for the empty table. *)
Theorem topKeywords_length (scores : ScoreTable) (max : nat) :
  (length (topKeywords scores max) ≤ Nat.max 1 max)%nat ∧
  (topKeywords scores max = [] ↔ scores = []).
Proof.
  destruct (topKeywords_spec scores max) as (entries & _ & _ & _ & Hlen & Hne & _).
  split; [done|]. split.
  - intros Hnil. destruct scores as [|kv scores]; [done|].
    exfalso. by apply Hne.
  - intros ->. reflexivity.
Qed.

(** X6: when [topKeywords] stops short of the cap, no root is lost:
    every word of the table has its root among the roots of the
    keywords. *)
Theorem topKeywords_covers_roots (scores : ScoreTable) (max : nat) :
  (length (topKeywords scores max) < max)%nat →
  root_of <$> keys scores ⊆ root_of <$> topKeywords scores max.
Proof.
  destruct (topKeywords_spec scores max) as (entries & _ & _ & _ & _ & _ & Hall).
  intros Hlt r Hr. apply list_elem_of_fmap in Hr as (w & -> & Hw).
  by apply Hall.
Qed.

Lemma topKeywords_covers_roots_witness :
  (length (topKeywords [("cat", 1%float); ("cats", 2%float); ("dog", 1%float)] 12)
   < 12)%nat ∧
  root_of <$> keys [("cat", 1%float); ("cats", 2%float); ("dog", 1%float)]
  ⊆ root_of <$> topKeywords [("cat", 1%float); ("cats", 2%float); ("dog", 1%float)] 12.
Proof.
  split; [vm_compute; lia|].
  apply (topKeywords_covers_roots
           [("cat", 1%float); ("cats", 2%float); ("dog", 1%float)] 12).
  vm_compute; lia.
Defined.

(** ** What a refinement scores *)

Lemma colour_words_scorable (w : string) :
  has COLOR_WORDS w = true → scorable w = true.
Proof.
  intros Hw. apply bool_decide_eq_true in Hw. unfold COLOR_WORDS in Hw.
  apply elem_of_list_to_set, list_elem_of_In in Hw.
  match type of Hw with
  | In _ ?L => assert (H : forallb scorable L = true) by (vm_compute; reflexivity)
  end.
  rewrite forallb_forall in H. exact (H w Hw).
Qed.

Lemma preseed_keys (scores : ScoreTable) (text w : string) :
  w ∈ keys (preseedColorHintsFromUserText scores text) ↔
  w ∈ keys scores ∨ (w ∈ tokenize text ∧ has COLOR_WORDS w = true).
Proof.
  unfold preseedColorHintsFromUserText.
  apply (scoring_loop_keys (has COLOR_WORDS) (λ _, 0.6%float)).
Qed.

Lemma scoreTokensFrom_keys (text : string) (weight : float)
    (scores : ScoreTable) (w : string) :
  w ∈ keys (scoreTokensFrom text weight scores) ↔
  w ∈ keys scores ∨ (w ∈ tokenize text ∧ scorable w = true).
Proof.
  rewrite scoreTokensFrom_loop.
  apply (scoring_loop_keys scorable
           (λ w, (weight * posBias w * domainBias w)%float)).
Qed.

Lemma kept_titles_keys (l : list Item) :
  ∀ (scores : ScoreTable) (w : string),
    w ∈ keys (fold_left (λ sc k, scoreTokensFrom (title k) keptWeight sc) l scores) ↔
    w ∈ keys scores ∨ (w ∈ (l ≫= λ k, tokenize (title k)) ∧ scorable w = true).
Proof.
  induction l as [|k l IH]; intros scores w; simpl.
  - split; [auto | by intros [?|[?%not_elem_of_nil _]]].
  - rewrite IH, scoreTokensFrom_keys, elem_of_app. tauto.
Qed.

Lemma refineScores_keys (s : Session) (item : Item) (w : string) :
  w ∈ keys (refineScores s item) →
  w ∈ refine_sources s item ∧ scorable w = true.
Proof.
  unfold refineScores, refine_sources.
  rewrite scoreTokensFrom_keys, kept_titles_keys, scoreTokensFrom_keys,
    preseed_keys, !elem_of_app.
  intros [[[[H|[? Hc]]|[? ?]]|[? ?]]|[? ?]].
  - by apply not_elem_of_nil in H.
  - apply colour_words_scorable in Hc. auto.
  - auto.
  - auto.
  - auto 6.
Qed.

Lemma refine_sources_clean (s : Session) (item : Item) (w : string) :
  w ∈ refine_sources s item → clean_token w.
Proof.
  unfold refine_sources. rewrite !elem_of_app.
  intros [?|[?|[Hk|?]]]; try by eapply tokenize_clean.
  apply list_elem_of_bind in Hk as (k & ? & _). by eapply tokenize_clean.
Qed.

(** X7: every keyword of a refinement is a token of the typed text,
    of the active query, of one of the five most recent kept titles or
    of the title of the accepted item; it is no stop word and has three
    characters or more; and there are twelve keywords at most. *)
Theorem refineKeywords_provenance (s : Session) (item : Item) :
  refineKeywords s item ⊆ refine_sources s item ∧
  Forall (λ w, scorable w = true) (refineKeywords s item) ∧
  (length (refineKeywords s item) ≤ 12)%nat.
Proof.
  unfold refineKeywords.
  destruct (topKeywords_spec (refineScores s item) 12)
    as (entries & Hperm & Hsub & _ & Hlen & _).
  assert (Hk : ∀ w, w ∈ topKeywords (refineScores s item) 12 →
                    w ∈ keys (refineScores s item)).
  { intros w Hw. unfold keys. rewrite <- Hperm.
    eapply elem_of_sublist; [exact Hw | exact Hsub]. }
  split; [|split; [|done]].
  - intros w Hw. by destruct (refineScores_keys s item w (Hk w Hw)).
  - apply Forall_forall. intros w Hw.
    by destruct (refineScores_keys s item w (Hk w Hw)).
Qed.

Lemma join_truthy (l : list string) :
  l ≠ [] → Forall clean_token l → truthy (join " " l) = true.
Proof.
  destruct l as [|w l]; [done|]. intros _ Hl.
  apply Forall_cons in Hl as [[Hne _] _].
  destruct w as [|c w]; [done|]. destruct l; reflexivity.
Qed.

(** X8: when a refinement has keywords, [refineQueryWith] returns
    them joined by single spaces, and the tokens of the returned query
    are those keywords, in their order. *)
Theorem refined_query_tokenizes_to_keywords (s : Session) (item : Item) :
  refineKeywords s item ≠ [] →
  refineQueryWith s item = join " " (refineKeywords s item) ∧
  tokenize (refineQueryWith s item) = refineKeywords s item.
Proof.
  intros Hne.
  assert (Hclean : Forall clean_token (refineKeywords s item)).
  { apply Forall_forall. intros w Hw.
    apply (refine_sources_clean s item).
    unfold refineKeywords in *.
    destruct (topKeywords_spec (refineScores s item) 12)
      as (entries & Hperm & Hsub & _).
    apply (refineScores_keys s item w). unfold keys. rewrite <- Hperm.
    eapply elem_of_sublist; [exact Hw | exact Hsub]. }
  assert (Hq : refineQueryWith s item = join " " (refineKeywords s item)).
  { unfold refineQueryWith. by rewrite join_truthy. }
  split; [done|]. rewrite Hq. by apply tokenize_join.
Qed.

Lemma refined_query_tokenizes_to_keywords_witness :
  refineKeywords after_first_page (item_of "a" "Dark Horizon Silhouette") ≠ [] ∧
  refineQueryWith after_first_page (item_of "a" "Dark Horizon Silhouette") =
    join " " (refineKeywords after_first_page (item_of "a" "Dark Horizon Silhouette")) ∧
  tokenize (refineQueryWith after_first_page (item_of "a" "Dark Horizon Silhouette")) =
    refineKeywords after_first_page (item_of "a" "Dark Horizon Silhouette").
Proof.
  split; [vm_compute; discriminate|].
  apply (refined_query_tokenizes_to_keywords
           after_first_page (item_of "a" "Dark Horizon Silhouette")).
  vm_compute; discriminate.
Defined.

(** X1: [tokenize] is idempotent through a join: the tokens of a text,
    joined by single spaces and split again, are the same tokens, and
    every token is a non-empty word of lower-case letters, digits and
    hyphens. *)
Theorem tokenize_join_tokenize (text : string) :
  tokenize (join " " (tokenize text)) = tokenize text ∧
  Forall clean_token (tokenize text).
Proof.
  assert (H : Forall clean_token (tokenize text)).
  { apply Forall_forall. intros t. apply tokenize_clean. }
  split; [by apply tokenize_join | done].
Qed.

(** X2: what [scoreTokensFrom] touches: the table keeps the entries it
    had, in their order, gains an entry exactly for the tokens of the
    text that are no stop words and have three characters or more, and
    the score of every other word is unchanged. *)
Theorem scoreTokensFrom_frame (text : string) (weight : float)
    (scores : ScoreTable) :
  let result := scoreTokensFrom text weight scores in
  keys scores `prefix_of` keys result ∧
  (∀ w, w ∈ keys result ↔
        w ∈ keys scores ∨ (w ∈ tokenize text ∧ scorable w = true)) ∧
  (∀ w, ¬ (w ∈ tokenize text ∧ scorable w = true) →
        get_score w result = get_score w scores).
Proof.
  intros result. unfold result. rewrite scoreTokensFrom_loop.
  apply (scoring_loop_keys scorable
           (λ w, (weight * posBias w * domainBias w)%float)).
Qed.

(** ** The seen set and the kept list only grow *)

Lemma step_seen (s : Session) (e : Event) :
  Inv s → seenIds s ⊆ seenIds (step s e).
Proof.
  intros HI. pose proof (inv_ref s HI) as Href.
  assert (Hsame : ∀ s', shown s' = shown s → seenIds s ⊆ seenIds s').
  { intros s' Hsh. injection Hsh as _ _ -> _. done. }
  destruct e; simpl.
  - done.
  - destruct (topUp_cases s) as [->| ->]; [done|].
    destruct (fillSlots_cases s)
      as [->|(added & pre & nq & _ & _ & _ & _ & Hs & _)]; [done|].
    rewrite Hs, Href. set_solver.
  - destruct (slot (visible s) idx) as [item|] eqn:Hslot.
    + destruct (handleAccept_fields idx s item Hslot) as (_ & _ & Hs & _).
      rewrite Hs. set_solver.
    + unfold handleAccept. by rewrite Hslot.
  - destruct (slot (visible s) idx) as [item|] eqn:Hslot.
    + destruct (handleReject_fields idx s item Hslot) as (_ & _ & Hs & _).
      rewrite Hs. set_solver.
    + unfold handleReject. by rewrite Hslot.
  - apply Hsame, fetchImages_resume_shown.
  - destruct (analyzePoemAndSearch_fields poem s) as (_ & _ & _ & Hs & _).
    by rewrite Hs.
  - apply Hsame, analyze_enrichment_same.
  - apply Hsame, analyze_body_same.
  - destruct (analyze_refined_same myReq optimisticGot refined r s) as [Hsh _].
    apply Hsame. by rewrite Hsh, fetchImages_resume_shown.
Qed.

Lemma step_kept (s : Session) (e : Event) :
  kept s `suffix_of` kept (step s e).
Proof.
  assert (Hsame : ∀ s', shown s' = shown s → kept s `suffix_of` kept s').
  { intros s' Hsh. injection Hsh as _ -> _ _. done. }
  destruct e; simpl.
  - done.
  - destruct (topUp_cases s) as [->| ->]; [done|].
    destruct (fillSlots_cases s)
      as [->|(added & pre & nq & _ & _ & _ & Hk & _)]; [done|].
    by rewrite Hk.
  - destruct (slot (visible s) idx) as [item|] eqn:Hslot.
    + destruct (handleAccept_fields idx s item Hslot) as (_ & Hk & _).
      rewrite Hk. by apply suffix_cons_r.
    + unfold handleAccept. by rewrite Hslot.
  - destruct (slot (visible s) idx) as [item|] eqn:Hslot.
    + destruct (handleReject_fields idx s item Hslot) as (_ & Hk & _).
      by rewrite Hk.
    + unfold handleReject. by rewrite Hslot.
  - apply Hsame, fetchImages_resume_shown.
  - destruct (analyzePoemAndSearch_fields poem s) as (_ & _ & Hk & _).
    by rewrite Hk.
  - apply Hsame, analyze_enrichment_same.
  - apply Hsame, analyze_body_same.
  - destruct (analyze_refined_same myReq optimisticGot refined r s) as [Hsh _].
    apply Hsame. by rewrite Hsh, fetchImages_resume_shown.
Qed.

Lemma run_seen (evs : list Event) :
  ∀ s, Inv s → seenIds s ⊆ seenIds (run s evs).
Proof.
  induction evs as [|e evs IH]; intros s HI; [done|].
  rewrite run_cons. etransitivity; [by apply step_seen|].
  by apply IH, step_Inv.
Qed.

Lemma run_kept (evs : list Event) :
  ∀ s, kept s `suffix_of` kept (run s evs).
Proof.
  induction evs as [|e evs IH]; intros s; [done|].
  rewrite run_cons. etransitivity; [apply step_kept | apply IH].
Qed.

(** X9: along every sequence of events nothing leaves the seen set,
    and the kept list only grows at its front. *)
Theorem seen_and_kept_only_grow (evs evs' : list Event) :
  seenIds (run mounted evs) ⊆ seenIds (run mounted (evs ++ evs')) ∧
  kept (run mounted evs) `suffix_of` kept (run mounted (evs ++ evs')).
Proof.
  rewrite run_app. split; [apply run_seen, run_Inv, mounted_Inv | apply run_kept].
Qed.

(** X10: after every sequence of events the ids in the window and
    in the kept list are in the seen set, and the ref that the filters
    read holds the same set as the state. *)
Theorem shown_and_kept_are_seen (evs : list Event) :
  let s := run mounted evs in
  (∀ x, x ∈ ids (visible s) → x ∈ seenIds s) ∧
  (∀ x, x ∈ ids (kept s) → x ∈ seenIds s) ∧
  seenIdsRef s = seenIds s.
Proof.
  intros s. pose proof (run_Inv evs mounted mounted_Inv) as [? ? ? ? ? ? ?].
  done.
Qed.

(** ** A seen item does not come back *)

Lemma step_not_shown (s : Session) (e : Event) (x : string) :
  Inv s → x ∈ seenIds s → x ∉ ids (visible s) → x ∉ ids (visible (step s e)).
Proof.
  intros HI Hs Hv Hx. destruct (step_adds s e x HI) as [_ H].
  destruct (H Hx); done.
Qed.

Lemma run_not_shown (evs : list Event) (x : string) :
  ∀ s, Inv s → x ∈ seenIds s → x ∉ ids (visible s) →
       x ∉ ids (visible (run s evs)).
Proof.
  induction evs as [|e evs IH]; intros s HI Hs Hv; [done|].
  rewrite run_cons. apply IH.
  - by apply step_Inv.
  - by apply (step_seen s e HI).
  - by apply step_not_shown.
Qed.

(** X11: an id that is in the seen set and not in the window does
    not enter the window again, whatever events follow and whatever the
    provider sends. *)
Theorem seen_item_is_never_shown_again (evs evs' : list Event) (x : string) :
  x ∈ seenIds (run mounted evs) →
  x ∉ ids (visible (run mounted evs)) →
  x ∉ ids (visible (run mounted (evs ++ evs'))).
Proof.
  intros Hs Hv. rewrite run_app.
  apply run_not_shown; [apply run_Inv, mounted_Inv | done..].
Qed.

Lemma seen_item_is_never_shown_again_witness :
  let evs := [ ImagesArrived false (Ok (Json (Some first_page))); TopUp; Reject 0 ] in
  let evs' := [ TopUp; ImagesArrived true (Ok (Json (Some repeating_page))); TopUp;
                Reject 0; TopUp ] in
  "a" ∈ seenIds (run mounted evs) ∧
  ("a" ∉ ids (visible (run mounted evs))) ∧
  ("a" ∉ ids (visible (run mounted (evs ++ evs')))).
Proof.
  assert (H1 : "a" ∈ seenIds (run mounted
            [ ImagesArrived false (Ok (Json (Some first_page))); TopUp; Reject 0 ])).
  { apply (bool_decide_unpack _). vm_compute. exact I. }
  assert (H2 : "a" ∉ ids (visible (run mounted
            [ ImagesArrived false (Ok (Json (Some first_page))); TopUp; Reject 0 ]))).
  { apply (bool_decide_unpack _). vm_compute. exact I. }
  split; [exact H1|]. split; [exact H2|].
  exact (seen_item_is_never_shown_again
           [ ImagesArrived false (Ok (Json (Some first_page))); TopUp; Reject 0 ]
           [ TopUp; ImagesArrived true (Ok (Json (Some repeating_page))); TopUp;
             Reject 0; TopUp ] "a" H1 H2).
Defined.

(** X12: an item that was accepted or rejected from its slot is in
    the window after no later sequence of events. *)
Theorem decided_item_is_never_shown_again (evs evs' : list Event) (idx : Z)
    (item : Item) (accept : bool) :
  slot (visible (run mounted evs)) idx = Some item →
  let decision := if accept then Accept idx else Reject idx in
  id item ∉ ids (visible (run mounted (evs ++ decision :: evs'))).
Proof.
  intros Hslot decision. rewrite run_app, run_cons.
  set (s := run mounted evs) in *.
  assert (HI : Inv s) by apply run_Inv, mounted_Inv.
  destruct (slot_Some _ _ _ Hslot) as (_ & Hi & _).
  assert (Hd : id item ∈ seenIds (step s decision) ∧
               id item ∉ ids (visible (step s decision))).
  { unfold decision. destruct accept; simpl.
    - destruct (handleAccept_fields idx s item Hslot) as (Hv & _ & Hs & _).
      rewrite Hv, Hs. split; [set_solver|].
      apply not_in_delete_NoDup; [done | apply HI].
    - destruct (handleReject_fields idx s item Hslot) as (Hv & _ & Hs & _).
      rewrite Hv, Hs. split; [set_solver|].
      apply not_in_delete_NoDup; [done | apply HI]. }
  destruct Hd. apply run_not_shown; [by apply step_Inv | done..].
Qed.

Lemma decided_item_is_never_shown_again_witness :
  let evs := [ ImagesArrived false (Ok (Json (Some first_page))); TopUp ] in
  let evs' := [ ImagesArrived false (Ok (Json (Some repeating_page))); TopUp ] in
  slot (visible (run mounted evs)) 0 = Some (item_of "a" "Dark Horizon Silhouette") ∧
  (id (item_of "a" "Dark Horizon Silhouette")
     ∉ ids (visible (run mounted (evs ++ Accept 0 :: evs')))).
Proof.
  assert (H : slot (visible (run mounted
             [ ImagesArrived false (Ok (Json (Some first_page))); TopUp ])) 0
            = Some (item_of "a" "Dark Horizon Silhouette"))
    by (vm_compute; reflexivity).
  split; [exact H|].
  exact (decided_item_is_never_shown_again
           [ ImagesArrived false (Ok (Json (Some first_page))); TopUp ]
           [ ImagesArrived false (Ok (Json (Some repeating_page))); TopUp ]
           0 (item_of "a" "Dark Horizon Silhouette") true H).
Defined.

(** ** A second top-up finds nothing to do *)

Lemma fill_loop_exit (seen : gset string) (q : list Item) :
  ∀ v onScreen shown nv nq shown',
    fill_loop seen v q onScreen shown = (nv, nq, shown') →
    (SLOT_COUNT ≤ length nv)%nat ∨ nq = [].
Proof.
  induction q as [|c q IH]; intros v onScreen shown nv nq shown' Hloop;
    simpl in Hloop.
  - inversion Hloop. by right.
  - destruct (length v <? SLOT_COUNT)%nat eqn:Hlen.
    + destruct (has onScreen (id c) || has seen (id c)); by eapply IH.
    + inversion Hloop; subst. left. by apply Nat.ltb_ge.
Qed.

Lemma fillSlots_exit (s : Session) :
  fillSlots s s = s ∨
  (SLOT_COUNT ≤ length (visible (fillSlots s s)))%nat ∨
  itemsQueue (fillSlots s s) = [].
Proof.
  unfold fillSlots.
  destruct (SLOT_COUNT <=? length (visible s))%nat; [by left|].
  destruct (length (itemsQueue s) =? 0)%nat; [by left|].
  destruct (fill_loop _ _ _ _ _) as [[nv nq] shown'] eqn:Hloop.
  destruct (length shown' =? 0)%nat; [by left|].
  right. simpl. by eapply fill_loop_exit.
Qed.

(** X13: the top-up effect is idempotent: run right after itself it
    changes nothing. *)
Theorem topUp_idempotent (s : Session) : topUp (topUp s) = topUp s.
Proof.
  destruct (topUp_cases s) as [H|H]; rewrite H; [done|].
  destruct (fillSlots_exit s) as [Heq|Hexit]; [by rewrite Heq in *|].
  unfold topUp at 1.
  destruct Hexit as [Hfull| ->].
  - apply Nat.ltb_ge in Hfull. by rewrite Hfull.
  - by rewrite andb_false_r.
Qed.

(** ** What the pieces leave alone *)

Lemma fillSlots_controls (render s : Session) :
  controls (fillSlots render s) = controls s ∧
  loading (fillSlots render s) = loading s ∧
  error (fillSlots render s) = error s ∧
  fetchingRef (fillSlots render s) = fetchingRef s.
Proof.
  unfold fillSlots.
  destruct (SLOT_COUNT <=? _)%nat; [done|].
  destruct (length (itemsQueue render) =? 0)%nat; [done|].
  destruct (fill_loop _ _ _ _ _) as [[nv nq] shown'].
  destruct (length shown' =? 0)%nat; done.
Qed.

Lemma fetchImages_begin_controls query pageNum append (s : Session) :
  controls (fst (fetchImages_begin query pageNum append s)) = controls s.
Proof. unfold fetchImages_begin. destruct (fetchingRef s); done. Qed.

Lemma fetchImages_resume_controls append r (s : Session) :
  controls (fst (fetchImages_resume append r s)) = controls s.
Proof. destruct r as [m|st b|[m|items]]; done. Qed.

Lemma analyze_finally_controls myReq (s : Session) :
  controls (analyze_finally myReq s) = controls s.
Proof. unfold analyze_finally. destruct (myReq =? _); done. Qed.

Lemma analyze_tail_none_controls myReq optimisticGot refined (s : Session) :
  controls (analyze_tail myReq optimisticGot refined 0 s) = controls s.
Proof.
  unfold analyze_tail. destruct (negb _); [apply analyze_finally_controls|].
  simpl. rewrite analyze_finally_controls.
  by destruct (optimisticGot =? 0)%nat.
Qed.

Lemma step_query (s : Session) (e : Event) :
  userText (step s e) = match e with Typed text => text | _ => userText s end ∧
  match e with
  | Accept idx =>
      activeQuery (step s e) =
      match slot (visible s) idx with
      | Some item => refineQueryWith s item
      | None => activeQuery s
      end
  | RefinedArrived myReq _ refined _ =>
      activeQuery (step s e) = activeQuery s ∨
      (myReq = currentRequestRef s ∧ activeQuery (step s e) = refined)
  | _ => activeQuery (step s e) = activeQuery s
  end.
Proof.
  assert (Hc : ∀ s1 s2, controls s1 = controls s2 →
                 userText s1 = userText s2 ∧ activeQuery s1 = activeQuery s2).
  { intros s1 s2 H. by injection H as -> -> _ _. }
  destruct e; simpl.
  - done.
  - unfold topUp. destruct (_ && _); [|done]. apply Hc, fillSlots_controls.
  - unfold handleAccept. destruct (slot _ _) as [item|]; [|done].
    cbv zeta. destruct (Hc _ _ (fetchImages_begin_controls
      (refineQueryWith s item) 1 false
      (setItemsQueue [] (setPage 1 (setActiveQuery (refineQueryWith s item)
         (removeSlotAt idx (markSeen (id item) (setKept (item :: kept s) s))))))))
      as [-> ->]. done.
  - unfold handleReject. destruct (slot _ _) as [item|]; [|done].
    cbv zeta.
    set (s1 := removeSlotAt idx (markSeen (id item) s)).
    assert (H1 : controls (if (length (itemsQueue s) =? 0)%nat
                           then fillSlots s s1 else s1) = controls s).
    { destruct (_ =? _)%nat; [|done].
      destruct (fillSlots_controls s s1) as [-> _]. done. }
    destruct (_ && _).
    + match goal with |- context [fetchImages_begin ?q ?p ?a ?t] =>
        destruct (Hc _ _ (fetchImages_begin_controls q p a t)) as [-> ->] end.
      simpl. by apply Hc.
    + by apply Hc.
  - apply Hc, fetchImages_resume_controls.
  - unfold analyzePoemAndSearch, fetchImages_begin. simpl.
    destruct (fetchingRef s); done.
  - unfold analyze_enrichment. destruct (negb _); simpl.
    + apply Hc, analyze_finally_controls.
    + destruct aiResp as [[|]|]; simpl; try done;
        apply (Hc _ _ (analyze_finally_controls myReq (setLoading false s))).
  - unfold analyze_body, analyze_catch. destruct body as [m|[|q|m]]; simpl.
    + apply (Hc _ _ (analyze_finally_controls myReq (setError _ s))).
    + apply Hc, analyze_finally_controls.
    + destruct (_ && _); simpl; [|apply Hc, analyze_finally_controls].
      pose proof (fetchImages_begin_controls (trim q) 1 false s) as Hb.
      destruct (fetchImages_begin (trim q) 1 false s) as [s1 [req|]];
        simpl in *; [by apply Hc|].
      destruct (Hc _ _ Hb) as [<- <-]. apply Hc, analyze_tail_none_controls.
    + apply (Hc _ _ (analyze_finally_controls myReq (setError _ s))).
  - unfold analyze_refined.
    pose proof (fetchImages_resume_controls false r s) as Hr.
    pose proof (fetchImages_resume_generation false r s) as Hg.
    destruct (fetchImages_resume false r s) as [s1 got]. simpl in *.
    destruct (Hc _ _ Hr) as [Hu Ha].
    unfold analyze_tail. destruct (myReq =? currentRequestRef s1) eqn:E; simpl.
    + apply Z.eqb_eq in E. rewrite Hg in E.
      destruct (0 <? got)%nat.
      * destruct (Hc _ _ (analyze_finally_controls myReq
                            (setActiveQuery refined s1))) as [-> ->].
        simpl. split; [done | by right].
      * destruct (optimisticGot =? 0)%nat.
        -- destruct (Hc _ _ (analyze_finally_controls myReq (setError
             (Some "No matches found. Try broader words.") s1))) as [-> ->].
           simpl. split; [done | by left].
        -- destruct (Hc _ _ (analyze_finally_controls myReq s1)) as [-> ->].
           split; [done | by left].
    + destruct (Hc _ _ (analyze_finally_controls myReq s1)) as [-> ->].
      split; [done | by left].
Qed.

(** X14: the typed text changes with typing only; the active query
    changes only when a shown item is accepted (to the refined query)
    and when the refined fetch of the current analysis brings items (to
    the query of the enrichment); rejecting, fetching, topping up and
    starting an analysis leave it as it is. *)
Theorem query_frame (s : Session) (e : Event) :
  userText (step s e) = match e with Typed text => text | _ => userText s end ∧
  match e with
  | Accept idx =>
      activeQuery (step s e) =
      match slot (visible s) idx with
      | Some item => refineQueryWith s item
      | None => activeQuery s
      end
  | RefinedArrived myReq _ refined _ =>
      activeQuery (step s e) = activeQuery s ∨
      (myReq = currentRequestRef s ∧ activeQuery (step s e) = refined)
  | _ => activeQuery (step s e) = activeQuery s
  end.
Proof. apply step_query. Qed.

(** ** The two decisions *)

Lemma fetchImages_begin_request query pageNum append (s : Session) :
  snd (fetchImages_begin query pageNum append s) =
  (if fetchingRef s then None else Some (GetImages query pageNum append)).
Proof. unfold fetchImages_begin. by destruct (fetchingRef s). Qed.

Lemma fetchImages_begin_page query pageNum append (s : Session) :
  page (fst (fetchImages_begin query pageNum append s)) = page s.
Proof. unfold fetchImages_begin. by destruct (fetchingRef s). Qed.

(** X15: accepting the item of a slot removes that one item from the
    window, puts it at the front of the kept list, marks it seen in
    state and ref, empties the queue, resets the page to 1, makes the
    refined query the active one and asks for its first page, unless a
    fetch is in flight. *)
Theorem accept_moves_item_to_kept (s : Session) (idx : Z) (item : Item) :
  slot (visible s) idx = Some item →
  let s' := fst (handleAccept idx s) in
  let refined := refineQueryWith s item in
  visible s' = delete (Z.to_nat idx) (visible s) ∧
  S (length (visible s')) = length (visible s) ∧
  kept s' = item :: kept s ∧
  seenIds s' = (seenIds s ∪ {[ id item ]}) ∧
  seenIdsRef s' = seenIds s' ∧
  itemsQueue s' = [] ∧
  page s' = 1 ∧
  activeQuery s' = refined ∧
  snd (handleAccept idx s) =
    (if fetchingRef s then None else Some (GetImages refined 1 false)).
Proof.
  intros Hslot s' refined.
  destruct (handleAccept_fields idx s item Hslot) as (Hv & Hk & Hs & Hr & Hq).
  destruct (slot_Some _ _ _ Hslot) as (_ & Hi & _).
  fold s' in Hv, Hk, Hs, Hr, Hq.
  repeat split; try done.
  - rewrite Hv, length_delete by by eexists.
    apply lookup_lt_Some in Hi. lia.
  - by rewrite Hr, Hs.
  - unfold s', handleAccept. rewrite Hslot. cbv zeta.
    by rewrite fetchImages_begin_page.
  - destruct (step_query s (Accept idx)) as [_ Ha].
    change (activeQuery (fst (handleAccept idx s)) =
            match slot (visible s) idx with
            | Some item => refineQueryWith s item
            | None => activeQuery s
            end) in Ha.
    by rewrite Hslot in Ha.
  - unfold handleAccept. rewrite Hslot. cbv zeta.
    by rewrite fetchImages_begin_request.
Qed.

Lemma accept_moves_item_to_kept_witness :
  slot (visible after_first_page) 1 = Some (item_of "b" "Lone Tree at Dusk") ∧
  let s' := fst (handleAccept 1 after_first_page) in
  let refined := refineQueryWith after_first_page (item_of "b" "Lone Tree at Dusk") in
  visible s' = delete (Z.to_nat 1) (visible after_first_page) ∧
  S (length (visible s')) = length (visible after_first_page) ∧
  kept s' = item_of "b" "Lone Tree at Dusk" :: kept after_first_page ∧
  seenIds s' =
    (seenIds after_first_page ∪ {[ id (item_of "b" "Lone Tree at Dusk") ]}) ∧
  seenIdsRef s' = seenIds s' ∧
  itemsQueue s' = [] ∧
  page s' = 1 ∧
  activeQuery s' = refined ∧
  snd (handleAccept 1 after_first_page) =
    (if fetchingRef after_first_page then None
     else Some (GetImages refined 1 false)).
Proof.
  assert (H : slot (visible after_first_page) 1
              = Some (item_of "b" "Lone Tree at Dusk"))
    by (vm_compute; reflexivity).
  split; [exact H|].
  exact (accept_moves_item_to_kept after_first_page 1
           (item_of "b" "Lone Tree at Dusk") H).
Defined.

(** X16: rejecting the item of a slot removes that one item from the
    window and marks it seen, and leaves kept list, queue and active
    query alone; when fewer than three items are queued and nothing is
    loading, the page advances by one and the next page of the active
    query is asked for in append mode, unless a fetch is in flight. *)
Theorem reject_drops_item (s : Session) (idx : Z) (item : Item) :
  slot (visible s) idx = Some item →
  let s' := fst (handleReject idx s) in
  let prefetch := (length (itemsQueue s) <? 3)%nat && negb (loading s) in
  visible s' = delete (Z.to_nat idx) (visible s) ∧
  kept s' = kept s ∧
  itemsQueue s' = itemsQueue s ∧
  activeQuery s' = activeQuery s ∧
  seenIds s' = (seenIds s ∪ {[ id item ]}) ∧
  seenIdsRef s' = seenIds s' ∧
  page s' = (if prefetch then page s + 1 else page s) ∧
  snd (handleReject idx s) =
    (if prefetch && negb (fetchingRef s)
     then Some (GetImages (activeQuery s) (page s + 1) true)
     else None).
Proof.
  intros Hslot s' prefetch.
  destruct (handleReject_fields idx s item Hslot) as (Hv & Hk & Hs & Hr & Hq).
  fold s' in Hv, Hk, Hs, Hr, Hq.
  destruct (step_query s (Reject idx)) as [_ Ha].
  change (activeQuery s' = activeQuery s) in Ha.
  assert (Hfill : ∀ t, (if (length (itemsQueue s) =? 0)%nat
                        then fillSlots s t else t) = t).
  { intros t. destruct (length (itemsQueue s) =? 0)%nat eqn:E; [|done].
    apply fillSlots_empty_queue. by apply Nat.eqb_eq. }
  repeat split; try done.
  - by rewrite Hr, Hs.
  - unfold s', prefetch, handleReject. rewrite Hslot. cbv zeta. rewrite Hfill.
    destruct (_ && _); [|done]. by rewrite fetchImages_begin_page.
  - unfold prefetch, handleReject. rewrite Hslot. cbv zeta. rewrite Hfill.
    destruct (_ && _); [|done]. rewrite fetchImages_begin_request.
    change (fetchingRef (setPage _ _)) with (fetchingRef s).
    by destruct (fetchingRef s).
Qed.

Lemma reject_drops_item_witness :
  slot (visible after_first_page) 0
    = Some (item_of "a" "Dark Horizon Silhouette") ∧
  let s' := fst (handleReject 0 after_first_page) in
  let prefetch :=
    (length (itemsQueue after_first_page) <? 3)%nat
    && negb (loading after_first_page) in
  visible s' = delete (Z.to_nat 0) (visible after_first_page) ∧
  kept s' = kept after_first_page ∧
  itemsQueue s' = itemsQueue after_first_page ∧
  activeQuery s' = activeQuery after_first_page ∧
  seenIds s' =
    (seenIds after_first_page ∪ {[ id (item_of "a" "Dark Horizon Silhouette") ]}) ∧
  seenIdsRef s' = seenIds s' ∧
  page s' = (if prefetch then page after_first_page + 1
             else page after_first_page) ∧
  snd (handleReject 0 after_first_page) =
    (if prefetch && negb (fetchingRef after_first_page)
     then Some (GetImages (activeQuery after_first_page)
                          (page after_first_page + 1) true)
     else None).
Proof.
  assert (H : slot (visible after_first_page) 0
              = Some (item_of "a" "Dark Horizon Silhouette"))
    by (vm_compute; reflexivity).
  split; [exact H|].
  exact (reject_drops_item after_first_page 0
           (item_of "a" "Dark Horizon Silhouette") H).
Defined.

(** ** A fetch that fails *)

(** X17: from the arrival of the response on, every fetch clears the
    loading flag and the in-flight ref and leaves window, kept list,
    seen set, typed text, active query, page and request counter alone;
    a fetch that failed (network, status, body) returns 0, leaves the
    queue alone and sets the error state to a message, a fetch that
    succeeded leaves the error state as it is. *)
Theorem failed_fetch_only_reports (append : bool) (r : ImagesResponse)
    (s : Session) :
  let s' := fst (fetchImages_resume append r s) in
  loading s' = false ∧ fetchingRef s' = false ∧
  shown s' = shown s ∧ controls s' = controls s ∧
  match r with
  | Ok (Json _) => error s' = error s
  | _ =>
      snd (fetchImages_resume append r s) = 0%nat ∧
      itemsQueue s' = itemsQueue s ∧
      is_Some (error s')
  end.
Proof.
  destruct r as [m|st b|[m|items]]; simpl; repeat split; by eexists.
Qed.

(** ** Trimming *)

Lemma trim_start_clean (s : string) : starts_clean (trim_start s) = true.
Proof.
  induction s as [|c s IH]; [done|]. cbn [trim_start].
  destruct (is_space c) eqn:E; [done|]. cbn [starts_clean]. by rewrite E.
Qed.

Lemma trim_start_id (s : string) : starts_clean s = true → trim_start s = s.
Proof.
  destruct s as [|c s]; [done|]. cbn [starts_clean trim_start].
  intros H%negb_true_iff. by rewrite H.
Qed.

Lemma trim_end_cons (c : ascii) (r : string) :
  trim_end (String c r) =
  match trim_end r with
  | EmptyString => if is_space c then EmptyString else String c EmptyString
  | r' => String c r'
  end.
Proof. reflexivity. Qed.

Lemma trim_end_clean (s : string) :
  starts_clean s = true →
  starts_clean (trim_end s) = true ∧ (s ≠ "" → trim_end s ≠ "").
Proof.
  destruct s as [|c s]; [done|]. cbn [starts_clean].
  intros H%negb_true_iff. rewrite trim_end_cons, H.
  destruct (trim_end s); cbn [starts_clean]; by rewrite H.
Qed.

Lemma trim_end_idempotent (s : string) : trim_end (trim_end s) = trim_end s.
Proof.
  induction s as [|c s IH]; [done|]. rewrite trim_end_cons.
  destruct (trim_end s) as [|c' r'] eqn:E.
  - destruct (is_space c) eqn:Hc; [done|].
    rewrite trim_end_cons. cbn [trim_end]. by rewrite Hc.
  - rewrite trim_end_cons, IH. done.
Qed.

Lemma trim_clean (s : string) : starts_clean (trim s) = true.
Proof. unfold trim. apply trim_end_clean, trim_start_clean. Qed.

Lemma trim_idempotent (s : string) : trim (trim s) = trim s.
Proof.
  unfold trim at 1. rewrite trim_start_id by apply trim_clean.
  unfold trim. apply trim_end_idempotent.
Qed.

Lemma trim_nonempty (s : string) :
  s ≠ "" → starts_clean s = true → trim s ≠ "".
Proof.
  intros Hne Hc. unfold trim. rewrite trim_start_id by done.
  by apply trim_end_clean.
Qed.

Lemma starts_clean_app (s t : string) :
  s ≠ "" → starts_clean s = true → starts_clean (s +:+ t) = true ∧ s +:+ t ≠ "".
Proof. destruct s as [|c s]; [done|]. intros _ H. by rewrite append_cons. Qed.

(** ** The analyze route *)

Lemma analyze_search_query_spec (body : AnalyzeRequest) :
  trim (analyze_search_query body) = analyze_search_query body ∧
  (analyze_search_query body = "" ↔
   or_else (trim <$> text body) "" = "" ∧
   trim (join " " (take 5 (or_else (acceptedTitles body) []))) = "").
Proof.
  split; [apply trim_idempotent|].
  unfold analyze_search_query.
  set (base := or_else (trim <$> text body) "").
  set (extras := join " " (take 5 (or_else (acceptedTitles body) []))).
  assert (Hbase : starts_clean base = true).
  { unfold base. destruct (text body); [apply trim_clean | done]. }
  cbn [List.filter].
  clearbody base extras.
  destruct base as [|c b]; cbn [truthy].
  - destruct extras as [|c' e]; cbn [truthy]; [done|].
    change (join " " [String c' e]) with (String c' e). tauto.
  - split; [|by intros [? _]]. intros H. exfalso. revert H.
    destruct extras as [|c' e]; cbn [truthy].
    + change (join " " [String c b]) with (String c b).
      by apply trim_nonempty.
    + rewrite join_cons_cons. apply trim_nonempty; by apply starts_clean_app.
Qed.

(** X18: the query that the analyze route answers has no white space
    at its ends, and it is empty exactly when the text is missing or
    blank and the first five titles joined are blank. *)
Theorem analyze_search_query_trimmed (body : AnalyzeRequest) :
  trim (analyze_search_query body) = analyze_search_query body ∧
  (analyze_search_query body = "" ↔
   or_else (trim <$> text body) "" = "" ∧
   trim (join " " (take 5 (or_else (acceptedTitles body) []))) = "").
Proof. apply analyze_search_query_spec. Qed.

(** X19: the page and the plain analyze route end to end: the page
    posts five titles at most, so the cut of the route keeps them all;
    for a poem that is not blank the route answers with a query that is
    not empty; and the page, reading that answer, starts the refined
    fetch of page 1 with exactly that query (or goes to its last steps
    when a fetch is in flight). *)
Theorem enrichment_round_trip (poem : string) (render s : Session)
    (myReq : Z) (optimisticGot : nat) (body : AnalyzeRequest) :
  posted_by_page (analyze_request poem render) = Some body →
  trim poem ≠ "" →
  let q := analyze_search_query body in
  acceptedTitles body = Some (take 5 (or_else (acceptedTitles body) [])) ∧
  analyze_POST (Posted body) = QueryAnswer q ∧
  q ≠ "" ∧
  analyze_body myReq optimisticGot (Analysis (Text q)) s =
    (if fetchingRef s
     then (analyze_tail myReq optimisticGot q 0 s, Finished)
     else (fst (fetchImages_begin q 1 false s),
           AwaitRefined optimisticGot q (GetImages q 1 false))).
Proof.
  intros Hbody Hpoem q. unfold analyze_request in Hbody. simpl in Hbody.
  injection Hbody as <-. cbn [acceptedTitles or_else].
  assert (Hq : q ≠ "").
  { unfold q. intros H. apply analyze_search_query_spec in H as [H _].
    by cbn in H. }
  assert (Htr : trim q = q) by apply analyze_search_query_spec.
  split.
  { f_equal. symmetry. apply take_ge.
    etransitivity; [apply filter_length_le|].
    rewrite length_map, length_take. lia. }
  split; [done|]. split; [done|].
  unfold analyze_body. rewrite Htr.
  assert (Ht : truthy q = true) by by destruct q.
  assert (Hl : (0 <? String.length q)%nat = true) by by destruct q.
  rewrite Ht, Hl. cbn [andb]. unfold fetchImages_begin.
  by destruct (fetchingRef s).
Qed.

Lemma enrichment_round_trip_witness :
  posted_by_page (analyze_request "stormy sea" after_first_page)
    = Some (mkAnalyzeRequest (Some "stormy sea") (Some [])) ∧
  trim "stormy sea" ≠ "" ∧
  let q := analyze_search_query (mkAnalyzeRequest (Some "stormy sea") (Some [])) in
  acceptedTitles (mkAnalyzeRequest (Some "stormy sea") (Some [])) =
    Some (take 5 (or_else
            (acceptedTitles (mkAnalyzeRequest (Some "stormy sea") (Some []))) [])) ∧
  analyze_POST (Posted (mkAnalyzeRequest (Some "stormy sea") (Some [])))
    = QueryAnswer q ∧
  q ≠ "" ∧
  analyze_body 1 3 (Analysis (Text q)) reading_body =
    (if fetchingRef reading_body
     then (analyze_tail 1 3 q 0 reading_body, Finished)
     else (fst (fetchImages_begin q 1 false reading_body),
           AwaitRefined 3 q (GetImages q 1 false))).
Proof.
  assert (H1 : posted_by_page (analyze_request "stormy sea" after_first_page)
               = Some (mkAnalyzeRequest (Some "stormy sea") (Some [])))
    by (vm_compute; reflexivity).
  assert (H2 : trim "stormy sea" ≠ "") by (vm_compute; discriminate).
  split; [exact H1|]. split; [exact H2|].
  exact (enrichment_round_trip "stormy sea" after_first_page reading_body 1 3
           (mkAnalyzeRequest (Some "stormy sea") (Some [])) H1 H2).
Defined.

(** ** The middleware *)

(** X20: the middleware redirects only the landing page without
    [skipIntro=1], to [/intro] with the same query string, and lets its
    own target pass; every other request passes. *)
Theorem middleware_redirects_once (nextUrl : NextUrl) :
  match middleware nextUrl with
  | redirect url =>
      pathname nextUrl = "/" ∧
      searchParams_get "skipIntro" (searchParams nextUrl) ≠ Some "1" ∧
      pathname url = "/intro" ∧ searchParams url = searchParams nextUrl ∧
      middleware url = next
  | next =>
      pathname nextUrl ≠ "/" ∨
      searchParams_get "skipIntro" (searchParams nextUrl) = Some "1"
  end.
Proof.
  unfold middleware. destruct (String.eqb (pathname nextUrl) "/") eqn:E; simpl.
  - apply String.eqb_eq in E. case_bool_decide; [by right|]. done.
  - apply String.eqb_neq in E. by left.
Qed.

(** ** [fetchWithRetry] *)

Lemma fetchWithRetry_spec (upstream : nat → FetchOutcome) (tries : nat) :
  ∀ attempt,
    let result := fetchWithRetry upstream attempt tries in
    (attempt < snd result ≤ attempt + Nat.max 1 tries)%nat ∧
    fst result = upstream (Nat.pred (snd result)) ∧
    (∀ k, (attempt ≤ k < Nat.pred (snd result))%nat →
          server_error (upstream k) = true) ∧
    ((snd result < attempt + tries)%nat → server_error (fst result) = false).
Proof.
  assert (Hstop : ∀ t attempt o,
    upstream attempt = o →
    ((S attempt < attempt + t)%nat → server_error o = false) →
    (attempt < S attempt ≤ attempt + Nat.max 1 t)%nat ∧
    o = upstream (Nat.pred (S attempt)) ∧
    (∀ k, (attempt ≤ k < Nat.pred (S attempt))%nat →
          server_error (upstream k) = true) ∧
    ((S attempt < attempt + t)%nat → server_error o = false)).
  { intros t attempt o Eu Ho. cbn [Nat.pred].
    split; [lia|]. split; [done|]. split; [intros k Hk; lia | done]. }
  induction tries as [|tries IH]; intros attempt; cbn [fetchWithRetry].
  - destruct (upstream attempt) as [|status] eqn:Eu.
    + apply Hstop; [done | lia].
    + destruct (status =? 429); [apply Hstop; [done | lia]|].
      rewrite andb_false_r. apply Hstop; [done | lia].
  - destruct (upstream attempt) as [|status] eqn:Eu.
    + apply (Hstop (S tries) attempt Rejects); done.
    + destruct (status =? 429) eqn:E429.
      { apply (Hstop (S tries) attempt (Responds status)); [done|]. intros _.
        apply Z.eqb_eq in E429. by subst. }
      destruct ((500 <=? status) && (status <? 600)) eqn:E5; cbn [andb].
      * destruct (1 <? S tries)%nat eqn:Et.
        -- destruct (IH (S attempt)) as (Hn & Hlast & Hretry & Hdone).
           apply Nat.ltb_lt in Et.
           split; [lia|]. split; [done|]. split.
           ++ intros k Hk. destruct (decide (k = attempt)) as [->|Hne].
              ** rewrite Eu. exact E5.
              ** apply Hretry. lia.
           ++ intros Hlt. apply Hdone. lia.
        -- apply Nat.ltb_ge in Et.
           apply (Hstop (S tries) attempt (Responds status)); [done | lia].
      * apply (Hstop (S tries) attempt (Responds status)); [done|]. intros _. exact E5.
Qed.

(** X21: the retry policy of the image route: [fetchWithRetry] makes
    one request at least and [tries] at most, hands on the outcome of
    its last request, goes on to another request only after a 5xx
    response (never after a 429 or a failure), and stops before [tries]
    requests only on an outcome that is no 5xx response. *)
Theorem fetchWithRetry_policy (upstream : nat → FetchOutcome) (tries : nat) :
  let result := fetchWithRetry upstream 0 tries in
  let requests := snd result in
  (1 ≤ requests ≤ Nat.max 1 tries)%nat ∧
  fst result = upstream (Nat.pred requests) ∧
  (∀ k, (k < Nat.pred requests)%nat →
        server_error (upstream k) = true ∧ upstream k ≠ Responds 429) ∧
  ((requests < tries)%nat → server_error (fst result) = false).
Proof.
  intros result requests.
  destruct (fetchWithRetry_spec upstream tries 0%nat) as (Hn & Hlast & Hretry & Hdone).
  fold result in Hn, Hlast, Hretry, Hdone. fold requests in Hn, Hlast, Hretry, Hdone.
  split; [lia|]. split; [done|]. split; [|intros ?; apply Hdone; lia].
  intros k Hk. assert (Hs : server_error (upstream k) = true) by (apply Hretry; lia).
  split; [done|]. intros Hu. rewrite Hu in Hs. discriminate.
Qed.

(** ** Domain lexicons *)

Lemma lexicons_disjoint (w : string) :
  (has COLOR_WORDS w = true → has MOOD_WORDS w = false ∧ has PHOTO_COMPOSITION w = false) ∧
  (has MOOD_WORDS w = true → has PHOTO_COMPOSITION w = false).
Proof.
  split; intros Hw; apply bool_decide_eq_true in Hw.
  - unfold COLOR_WORDS in Hw. apply elem_of_list_to_set, list_elem_of_In in Hw.
    match type of Hw with
    | In _ ?L =>
        assert (H : forallb (λ w, negb (has MOOD_WORDS w)
                                  && negb (has PHOTO_COMPOSITION w)) L = true)
          by (vm_compute; reflexivity)
    end.
    rewrite forallb_forall in H. specialize (H w Hw).
    apply andb_true_iff in H as [H1 H2].
    by apply negb_true_iff in H1, H2.
  - unfold MOOD_WORDS in Hw. apply elem_of_list_to_set, list_elem_of_In in Hw.
    match type of Hw with
    | In _ ?L =>
        assert (H : forallb (λ w, negb (has PHOTO_COMPOSITION w)) L = true)
          by (vm_compute; reflexivity)
    end.
    rewrite forallb_forall in H. specialize (H w Hw).
    by apply negb_true_iff in H.
Qed.

(** X3: the three lexicons of [domainBias] share no word, so a word
    gets one boost at most: 1.25 for a colour, 1.2 for a mood, 1.15 for
    a composition term, and 1 otherwise. *)
Theorem domainBias_single_boost (w : string) :
  domainBias w =
  if has COLOR_WORDS w then 1.25%float
  else if has MOOD_WORDS w then 1.2%float
  else if has PHOTO_COMPOSITION w then 1.15%float
  else 1.0%float.
Proof.
  unfold domainBias. destruct (lexicons_disjoint w) as [Hc Hm].
  destruct (has COLOR_WORDS w).
  - destruct Hc as [-> ->]; [done|]. reflexivity.
  - destruct (has MOOD_WORDS w).
    + rewrite Hm by done. reflexivity.
    + destruct (has PHOTO_COMPOSITION w); reflexivity.
Qed.

(** ** The items of the image route *)

Lemma toItem_id (x : JsonValue) : ov_id <$> toItem x = record_id x.
Proof.
  destruct x as [| | | | |o]; try done. simpl.
  by destruct (string_property "id" o).
Qed.

Lemma mapped_items_ids (results : list JsonValue) :
  ids (mapped_items results) = omap record_id results.
Proof.
  unfold mapped_items, ids. induction results as [|x results IH]; [done|].
  cbn [omap list_omap]. rewrite <- (toItem_id x).
  destruct (toItem x) as [r|]; [|exact IH].
  cbn [fmap list_fmap option_fmap option_map]. f_equal. exact IH.
Qed.

(** X22: the items that the image route hands to the page are the
    provider records with a string [id], in the provider's order and
    with those ids; the full image of an item is the record's [url], or
    the empty string, and its thumbnail the record's [thumbnail], or
    the full image. *)
Theorem mapped_items_keep_string_ids (results : list JsonValue) :
  ids (mapped_items results) = omap record_id results ∧
  Forall (λ it, ∃ o, JObject o ∈ results ∧
                     string_property "id" o = Some (id it) ∧
                     full it = or_else (string_property "url" o) "" ∧
                     thumb it = or_else (string_property "thumbnail" o) (full it))
         (mapped_items results).
Proof.
  split; [apply mapped_items_ids|].
  apply Forall_forall. intros it Hit. unfold mapped_items in Hit.
  apply list_elem_of_fmap in Hit as (r & -> & Hr).
  apply list_elem_of_omap in Hr as (x & Hx & Hr).
  destruct x as [| | | | |o]; try done. simpl in Hr.
  destruct (string_property "id" o) as [i|] eqn:Ei; [|done].
  injection Hr as <-. exists o. by repeat split.
Qed.
